(** * Modeline plugin for Geany: a shallow embedding of [modeline.c]

    The plugin scans the first lines of a document for a modeline
    (a line holding [" vim:"], [" vi:"], [" ex:"] or [" geany:"]), splits
    that line into options and applies every option it knows to the
    document.  This file embeds the three functions of the pipeline
    ([scan_document], [parse_options], [interpret_option]), the two
    hooks, the option table and the four handlers, and states what they
    do as theorems, numbered C1 to C10.

    C strings are modelled as [string] (a sequence of bytes without the
    terminating NUL), [gint] as [Z] with its 32-bit wrap-around written
    out, a [NULL]-terminated [gchar **] as a [list string], and a possibly
    [NULL] [gchar *] as [option string]. *)

From Stdlib Require Import ZArith List Bool Ascii String Lia.
Import ListNotations.

Open Scope string_scope.
Open Scope Z_scope.

(** ** The GLib string functions the plugin calls

    These are not part of the plugin; they are written after the GLib
    reference manual and [gstrfuncs.c]. *)

Module GLib.

Definition code (c : ascii) : Z := Z.of_N (N_of_ascii c).

(** [g_ascii_isspace]: space, form feed, newline, carriage return and
    horizontal tab.  The vertical tab (byte 11) is no white space in
    GLib's table. *)
Definition g_ascii_isspace (c : ascii) : bool :=
  let n := code c in
  (n =? 32) || (n =? 12) || (n =? 10) || (n =? 13) || (n =? 9).

Definition g_ascii_isupper (c : ascii) : bool :=
  (65 <=? code c) && (code c <=? 90).

Definition g_ascii_islower (c : ascii) : bool :=
  (97 <=? code c) && (code c <=? 122).

Definition g_ascii_isdigit (c : ascii) : bool :=
  (48 <=? code c) && (code c <=? 57).

(** [g_ascii_tolower], on the character code. *)
Definition g_ascii_tolower (c : ascii) : Z :=
  if g_ascii_isupper c then code c + 32 else code c.

(** [g_ascii_strcasecmp s1 s2]: walk both strings while neither has
    ended, return the difference of the first pair of lower-cased bytes
    that differ, and the difference of the bytes at the stop otherwise
    (the terminating NUL counts as 0). *)
Fixpoint g_ascii_strcasecmp (s1 s2 : string) : Z :=
  match s1, s2 with
  | String a s1', String b s2' =>
      let c1 := g_ascii_tolower a in
      let c2 := g_ascii_tolower b in
      if c1 =? c2 then g_ascii_strcasecmp s1' s2' else c1 - c2
  | String a _, EmptyString => code a - 0
  | EmptyString, String b _ => 0 - code b
  | EmptyString, EmptyString => 0
  end.

(** [g_strchug]: drop the leading white space. *)
Fixpoint g_strchug (s : string) : string :=
  match s with
  | EmptyString => EmptyString
  | String c s' => if g_ascii_isspace c then g_strchug s' else s
  end.

(** [g_strchomp]: drop the trailing white space.  The C loop walks back
    from the end; here a byte is kept when something that is not white
    space follows it or it is not white space itself. *)
Fixpoint g_strchomp (s : string) : string :=
  match s with
  | EmptyString => EmptyString
  | String c s' =>
      match g_strchomp s' with
      | EmptyString => if g_ascii_isspace c then EmptyString
                       else String c EmptyString
      | t => String c t
      end
  end.

(** [g_strstrip] is the macro [g_strchomp (g_strchug (s))]. *)
Definition g_strstrip (s : string) : string := g_strchomp (g_strchug s).

Fixpoint str_drop (n : nat) (s : string) : string :=
  match n, s with
  | O, _ => s
  | S _, EmptyString => EmptyString
  | S n', String _ s' => str_drop n' s'
  end.

Fixpoint str_take (n : nat) (s : string) : string :=
  match n, s with
  | O, _ => EmptyString
  | S _, EmptyString => EmptyString
  | S n', String c s' => String c (str_take n' s')
  end.

(** [strstr haystack needle]: the offset of the first occurrence of
    [needle], [None] for the C function's [NULL]. *)
Fixpoint strstr (haystack needle : string) : option nat :=
  if String.prefix needle haystack then Some O
  else match haystack with
       | EmptyString => None
       | String _ h' =>
           match strstr h' needle with
           | Some k => Some (S k)
           | None => None
           end
       end.

(** [g_strstr_len haystack len needle] with a negative [len] is
    [strstr]; the plugin passes [-1].  With a non-negative [len] the
    search is limited to the first [len] bytes. *)
Definition g_strstr_len (haystack : string) (len : Z) (needle : string)
  : option nat :=
  if len <? 0 then strstr haystack needle
  else strstr (str_take (Z.to_nat len) haystack) needle.

Definition G_MAXINT : Z := 2147483647.
Definition G_MAXUINT64 : Z := 18446744073709551615.

(** The loop of [g_strsplit]: [while (--max_tokens && s)], where [s] is
    the next occurrence of the delimiter in [remainder].  Every round
    consumes at least the delimiter, so [length string] rounds are
    enough; [rounds] is that bound. *)
Fixpoint g_strsplit_loop (rounds : nat) (delimiter : string)
  (max_tokens : Z) (remainder : string) : list string :=
  match rounds with
  | O => [remainder]
  | S rounds' =>
      match strstr remainder delimiter with
      | Some off =>
          if max_tokens - 1 =? 0 then [remainder]
          else str_take off remainder ::
               g_strsplit_loop rounds' delimiter (max_tokens - 1)
                 (str_drop (off + String.length delimiter) remainder)
      | None => [remainder]
      end
  end.

(** [g_strsplit string delimiter max_tokens]: at most [max_tokens]
    pieces, the last one holding the rest of the string; all pieces when
    [max_tokens < 1].  The empty string gives the empty vector, not a
    vector of one empty string.  The result is [NULL] only when the
    delimiter is empty (a failed precondition). *)
Definition g_strsplit (str delimiter : string) (max_tokens : Z)
  : option (list string) :=
  let max_tokens := if max_tokens <? 1 then G_MAXINT else max_tokens in
  match delimiter with
  | EmptyString => None
  | _ =>
      match str with
      | EmptyString => Some []
      | _ => Some (g_strsplit_loop (String.length str) delimiter
                     max_tokens str)
      end
  end.

Fixpoint mem_char (c : ascii) (set : string) : bool :=
  match set with
  | EmptyString => false
  | String d set' => Ascii.eqb c d || mem_char c set'
  end.

(** The loop of [g_strsplit_set]: [current] holds the bytes of the field
    being read, [n_tokens] the number of fields already cut. *)
Fixpoint g_strsplit_set_loop (delimiters : string) (max_tokens : Z)
  (s : string) (current : string) (n_tokens : Z) : list string :=
  match s with
  | EmptyString => [current]
  | String c s' =>
      if mem_char c delimiters && (n_tokens + 1 <? max_tokens)
      then current ::
           g_strsplit_set_loop delimiters max_tokens s' EmptyString
             (n_tokens + 1)
      else g_strsplit_set_loop delimiters max_tokens s'
             (current ++ String c EmptyString) n_tokens
  end.

(** [g_strsplit_set string delimiters max_tokens]: a new field starts
    after every byte that is in [delimiters], so two delimiters in a row
    give an empty field.  The empty string gives the empty vector. *)
Definition g_strsplit_set (str delimiters : string) (max_tokens : Z)
  : list string :=
  let max_tokens := if max_tokens <? 1 then G_MAXINT else max_tokens in
  match str with
  | EmptyString => []
  | _ => g_strsplit_set_loop delimiters max_tokens str EmptyString 0
  end.

(** The value of a byte as a digit of [g_ascii_strtoull]: decimal digits,
    then letters from 10 on. *)
Definition digit_value (c : ascii) : option Z :=
  if g_ascii_isdigit c then Some (code c - 48)
  else if g_ascii_isupper c then Some (code c - 65 + 10)
  else if g_ascii_islower c then Some (code c - 97 + 10)
  else None.

(** The digit loop of [g_parse_long_long]: the accumulated value, whether
    it overflowed 64 bits, and the number of bytes consumed. *)
Fixpoint parse_digits (base : Z) (s : string) (ui64 : Z) (overflow : bool)
  (consumed : nat) : Z * bool * nat :=
  match s with
  | EmptyString => (ui64, overflow, consumed)
  | String c s' =>
      match digit_value c with
      | Some d =>
          if base <=? d then (ui64, overflow, consumed)
          else
            let cutoff := G_MAXUINT64 / base in
            let cutlim := G_MAXUINT64 mod base in
            if (cutoff <? ui64) || ((ui64 =? cutoff) && (cutlim <? d))
            then parse_digits base s' ui64 true (S consumed)
            else parse_digits base s' (ui64 * base + d) overflow (S consumed)
      | None => (ui64, overflow, consumed)
      end
  end.

(** The optional sign in front of the digits: whether it is a minus,
    and what follows it. *)
Definition read_sign (s : string) : bool * string :=
  match s with
  | String c s' =>
      if Ascii.eqb c "-" then (true, s')
      else if Ascii.eqb c "+" then (false, s')
      else (false, s)
  | EmptyString => (false, s)
  end.

(** The white space [g_ascii_strtoull] skips in front of the number:
    that of C's [isspace] in the C locale, the vertical tab included. *)
Definition strtoull_isspace (c : ascii) : bool :=
  let n := code c in
  (n =? 32) || (n =? 12) || (n =? 10) || (n =? 13) || (n =? 9) || (n =? 11).

Fixpoint strtoull_skip (s : string) : string :=
  match s with
  | EmptyString => EmptyString
  | String c s' => if strtoull_isspace c then strtoull_skip s' else s
  end.

(** [g_ascii_strtoull nptr NULL base] for a [base] between 2 and 36 other
    than 16 (the plugin passes 10), which on glibc is [strtoull] in the C
    locale: skip white space, read an optional sign, read digits; no
    digit gives 0, an overflow gives [G_MAXUINT64] whatever the sign,
    and otherwise a leading [-] negates the result modulo 2^64. *)
Definition g_ascii_strtoull (nptr : string) (base : Z) : Z :=
  let '(negative, s) := read_sign (strtoull_skip nptr) in
  let '(ui64, overflow, consumed) := parse_digits base s 0 false O in
  match consumed with
  | O => 0
  | _ => if overflow then G_MAXUINT64
         else if negative then (- ui64) mod 2 ^ 64
         else ui64
  end.

End GLib.

Import GLib.

(** ** The Geany API the plugin calls

    The plugin reads and changes the document through Geany's plugin API
    ([geanyplugin.h]), which is not part of the plugin; the functions
    below are written after the Geany plugin API reference.  A document
    is modelled by the fields the plugin touches, together with the list
    of the API calls that changed it, oldest first. *)

Module Geany.

Inductive GeanyIndentType : Type :=
  | GEANY_INDENT_TYPE_SPACES
  | GEANY_INDENT_TYPE_TABS
  | GEANY_INDENT_TYPE_BOTH.

Definition SC_WRAP_NONE : Z := 0.
Definition SC_WRAP_WORD : Z := 1.

Inductive host_call : Type :=
  | Editor_set_indent_type (t : GeanyIndentType)
  | Editor_set_indent_width (width : Z)
  | Sci_set_wrap_mode (mode : Z)
  | Document_set_encoding (enc : string)
  | Document_reload_force (enc : string).

(** The Scintilla widget: the text, one string per line with its line
    end, and the wrap mode. *)
Record ScintillaObject : Type := mkSci {
  sci_text : list string;
  sci_wrap_mode : Z
}.

Record GeanyEditor : Type := mkEditor {
  sci : ScintillaObject;
  indent_type : GeanyIndentType;
  indent_width : Z;
  line_wrapping : Z
}.

(** [is_valid] is false for a slot of the document array that holds no
    document. *)
Record GeanyDocument : Type := mkDocument {
  is_valid : bool;
  editor : GeanyEditor;
  encoding : string;
  calls : list host_call
}.

Record GeanyIndentPrefs : Type := mkPrefs {
  prefs_width : Z;
  prefs_type : GeanyIndentType
}.

Definition record_call (doc : GeanyDocument) (c : host_call)
  : GeanyDocument :=
  mkDocument (is_valid doc) (editor doc) (encoding doc) (calls doc ++ [c]).

Definition with_editor (doc : GeanyDocument) (e : GeanyEditor)
  : GeanyDocument :=
  mkDocument (is_valid doc) e (encoding doc) (calls doc).

(** [sci_get_line_count]: the number of lines of the text. *)
Definition sci_get_line_count (s : ScintillaObject) : nat :=
  List.length (sci_text s).

(** [sci_get_line]: a copy of the text of line [line], line end
    included. *)
Definition sci_get_line (s : ScintillaObject) (line : nat) : string :=
  nth line (sci_text s) EmptyString.

(** [editor_get_indent_prefs]: the indent type and width in force for
    this editor. *)
Definition editor_get_indent_prefs (e : GeanyEditor) : GeanyIndentPrefs :=
  mkPrefs (indent_width e) (indent_type e).

(** [editor_set_indent_type (doc->editor, t)]: the width stays. *)
Definition editor_set_indent_type (doc : GeanyDocument)
  (t : GeanyIndentType) : GeanyDocument :=
  let e := editor doc in
  record_call
    (with_editor doc (mkEditor (sci e) t (indent_width e) (line_wrapping e)))
    (Editor_set_indent_type t).

(** [editor_set_indent_width (doc->editor, width)]: the type stays. *)
Definition editor_set_indent_width (doc : GeanyDocument) (width : Z)
  : GeanyDocument :=
  let e := editor doc in
  record_call
    (with_editor doc (mkEditor (sci e) (indent_type e) width (line_wrapping e)))
    (Editor_set_indent_width width).

(** [scintilla_send_message (doc->editor->sci, SCI_SETWRAPMODE, mode, 0)]. *)
Definition sci_set_wrap_mode (doc : GeanyDocument) (mode : Z)
  : GeanyDocument :=
  let e := editor doc in
  record_call
    (with_editor doc
       (mkEditor (mkSci (sci_text (sci e)) mode) (indent_type e)
          (indent_width e) (line_wrapping e)))
    (Sci_set_wrap_mode mode).

(** [document_set_encoding (doc, enc)]. *)
Definition document_set_encoding (doc : GeanyDocument) (enc : string)
  : GeanyDocument :=
  record_call (mkDocument (is_valid doc) (editor doc) enc (calls doc))
    (Document_set_encoding enc).

(** [document_reload_force (doc, enc)]: the request is recorded; the
    reload itself is the host's business, and the text and the settings
    of the document are taken to stay as they are. *)
Definition document_reload_force (doc : GeanyDocument) (enc : string)
  : GeanyDocument :=
  record_call doc (Document_reload_force enc).

End Geany.

Import Geany.

(** The settings a modeline can change: indent type, indent width, line
    wrapping (the flag of the editor and the wrap mode of Scintilla) and
    encoding. *)
Record Config : Type := mkConfig {
  cfg_indent_type : GeanyIndentType;
  cfg_indent_width : Z;
  cfg_line_wrapping : Z;
  cfg_wrap_mode : Z;
  cfg_encoding : string
}.

Definition config (doc : GeanyDocument) : Config :=
  mkConfig (indent_type (editor doc)) (indent_width (editor doc))
    (line_wrapping (editor doc)) (sci_wrap_mode (sci (editor doc)))
    (encoding doc).

(** ** modeline.c *)

(** [enum mode_opt_arg]. *)
Inductive mode_opt_arg : Type :=
  | MODE_OPT_ARG_INT
  | MODE_OPT_ARG_TRUE
  | MODE_OPT_ARG_FALSE
  | MODE_OPT_ARG_STR.

(** What the [void *arg] of a handler points to: a [gint] or a string. *)
Inductive cb_arg : Type :=
  | Arg_gint (iarg : Z)
  | Arg_str (str : string).

(** [struct mode_opt]; a [NULL] alias is [None]. *)
Record mode_opt : Type := mkOpt {
  name : string;
  alias : option string;
  arg_type : mode_opt_arg;
  cb : GeanyDocument -> cb_arg -> GeanyDocument
}.

(** The value a [guint64] has once stored in a [gint]. *)
Definition to_gint (z : Z) : Z := (z + 2 ^ 31) mod 2 ^ 32 - 2 ^ 31.

(** [opt_expand_tab]: spaces when [*iarg] is not zero, tabs otherwise.
    The table only pairs this handler with a [gint] argument; for a
    string argument the model leaves the document alone. *)
Definition opt_expand_tab (doc : GeanyDocument) (arg : cb_arg)
  : GeanyDocument :=
  match arg with
  | Arg_gint iarg =>
      editor_set_indent_type doc
        (if iarg =? 0 then GEANY_INDENT_TYPE_TABS
         else GEANY_INDENT_TYPE_SPACES)
  | Arg_str _ => doc
  end.

(** [opt_tab_stop]: read the preferences, set the width, set the type
    that was read.  ([prefs] points to storage of the host that holds
    the type of this editor, which setting the width does not change.) *)
Definition opt_tab_stop (doc : GeanyDocument) (arg : cb_arg)
  : GeanyDocument :=
  match arg with
  | Arg_gint iarg =>
      let prefs := editor_get_indent_prefs (editor doc) in
      let doc := editor_set_indent_width doc iarg in
      editor_set_indent_type doc (prefs_type prefs)
  | Arg_str _ => doc
  end.

(** [opt_wrap]: store [*iarg] in [line_wrapping] and tell Scintilla. *)
Definition opt_wrap (doc : GeanyDocument) (arg : cb_arg) : GeanyDocument :=
  match arg with
  | Arg_gint iarg =>
      let e := editor doc in
      let doc :=
        with_editor doc
          (mkEditor (sci e) (indent_type e) (indent_width e) iarg) in
      sci_set_wrap_mode doc (if iarg =? 0 then SC_WRAP_NONE else SC_WRAP_WORD)
  | Arg_str _ => doc
  end.

(** [opt_enc]: set the encoding to the string given.  The table only
    pairs this handler with a string argument. *)
Definition opt_enc (doc : GeanyDocument) (arg : cb_arg) : GeanyDocument :=
  match arg with
  | Arg_str str => document_set_encoding doc str
  | Arg_gint _ => doc
  end.

(** [opts], without the terminating entry. *)
Definition opts : list mode_opt :=
  [ mkOpt "expandtab"    (Some "et")       MODE_OPT_ARG_TRUE  opt_expand_tab;
    mkOpt "noexpandtab"  None              MODE_OPT_ARG_FALSE opt_expand_tab;
    mkOpt "tabstop"      (Some "ts")       MODE_OPT_ARG_INT   opt_tab_stop;
    mkOpt "softtabstop"  (Some "sts")      MODE_OPT_ARG_INT   opt_tab_stop;
    mkOpt "shiftwidth"   (Some "sw")       MODE_OPT_ARG_INT   opt_tab_stop;
    mkOpt "wrap"         None              MODE_OPT_ARG_TRUE  opt_wrap;
    mkOpt "nowrap"       None              MODE_OPT_ARG_FALSE opt_wrap;
    mkOpt "fileencoding" (Some "encoding") MODE_OPT_ARG_STR   opt_enc ].

(** [mode_pre], without the terminating [NULL]. *)
Definition mode_pre : list string := [" geany:"; " vi:"; " vim:"; " ex:"].

(** The test of the [if] in the loop of [interpret_option]: the name
    matches, or there is an alias and it matches. *)
Definition opt_matches (o : mode_opt) (key : string) : bool :=
  (g_ascii_strcasecmp (name o) key =? 0)
  || match alias o with
     | Some a => g_ascii_strcasecmp a key =? 0
     | None => false
     end.

(** The body of the [switch] of [interpret_option]. *)
Definition dispatch (o : mode_opt) (doc : GeanyDocument)
  (val : option string) : GeanyDocument :=
  match arg_type o with
  | MODE_OPT_ARG_TRUE => cb o doc (Arg_gint 1)
  | MODE_OPT_ARG_FALSE => cb o doc (Arg_gint 0)
  | MODE_OPT_ARG_INT =>
      match val with
      | Some v =>
          cb o doc (Arg_gint (to_gint (g_ascii_strtoull (g_strstrip v) 10)))
      | None => doc
      end
  | MODE_OPT_ARG_STR =>
      match val with
      | Some v => cb o doc (Arg_str v)
      | None => doc
      end
  end.

(** The [for] loop of [interpret_option] over the table: the first entry
    that matches is dispatched and the function returns. *)
Fixpoint interpret_loop (table : list mode_opt) (doc : GeanyDocument)
  (key : string) (val : option string) : GeanyDocument :=
  match table with
  | [] => doc
  | o :: rest =>
      if opt_matches o key then dispatch o doc val
      else interpret_loop rest doc key val
  end.

(** [interpret_option].  [kv[0]] and [kv[1]] are the first two entries
    of the vector, [NULL] from its end on.  (For the empty token the
    vector has no entry and the C code reads [kv[1]] past its end; what
    it reads there is not used, as [kv[0]] is [NULL] already.) *)
Definition interpret_option (doc : GeanyDocument) (opt : string)
  : GeanyDocument :=
  match g_strsplit opt "=" 2 with
  | Some kv =>
      match nth_error kv 0, nth_error kv 1 with
      | Some key, Some val => interpret_loop opts doc key (Some val)
      | _, _ => doc
      end
  | None => interpret_loop opts doc opt None
  end.

(** The fields [parse_options] hands to [interpret_option]: [tok[1]] and
    all that follow, in their order. *)
Definition option_tokens (buf : string) : list string :=
  skipn 1 (g_strsplit_set buf ": ," 0).

(** [parse_options]: the test [if (tok[i])] inside the loop repeats the
    loop condition, so every field from [tok[1]] on is interpreted.  (The
    scanner never passes an empty line, for which the vector would have
    no [tok[1]] to start at.) *)
Definition parse_options (doc : GeanyDocument) (buf : string)
  : GeanyDocument :=
  fold_left interpret_option (option_tokens buf) doc.

(** The inner loop of [scan_document]: is one of the prefixes found in
    [buf]? *)
Fixpoint has_mode_pre (pre : list string) (buf : string) : bool :=
  match pre with
  | [] => false
  | p :: rest =>
      match g_strstr_len buf (-1) p with
      | Some _ => true
      | None => has_mode_pre rest buf
      end
  end.

(** The outer loop of [scan_document]: [todo] is the number of lines
    still to look at, [line] the current one. *)
Fixpoint scan_lines (todo : nat) (line : nat) (doc : GeanyDocument)
  : GeanyDocument :=
  match todo with
  | O => doc
  | S todo' =>
      let buf := g_strstrip (sci_get_line (sci (editor doc)) line) in
      if has_mode_pre mode_pre buf then parse_options doc buf
      else scan_lines todo' (S line) doc
  end.

(** [scan_document]. *)
Definition scan_document (doc : GeanyDocument) : GeanyDocument :=
  if negb (is_valid doc) then doc
  else
    let lines := sci_get_line_count (sci (editor doc)) in
    scan_lines (Nat.min lines 50) 0 doc.

(** [on_document_open]. *)
Definition on_document_open (doc : GeanyDocument) : GeanyDocument :=
  let doc := scan_document doc in
  document_reload_force doc (encoding doc).

(** [on_document_save]. *)
Definition on_document_save (doc : GeanyDocument) : GeanyDocument :=
  scan_document doc.

(** ** Notions used in the statements *)

(** The document the host hands over when nothing was configured yet. *)
Definition sample_document (text : list string) (t : GeanyIndentType)
  (width : Z) : GeanyDocument :=
  mkDocument true (mkEditor (mkSci text SC_WRAP_NONE) t width 0) "UTF-8" [].

(** A line is examined after [g_strstrip]; it is a modeline when one of
    the prefixes of [mode_pre] is found in it. *)
Definition is_modeline (l : string) : bool :=
  has_mode_pre mode_pre (g_strstrip l).

(** No byte of the string is the terminating NUL: what every C string
    satisfies. *)
Fixpoint nul_free (s : string) : bool :=
  match s with
  | EmptyString => true
  | String c s' => negb (code c =? 0) && nul_free s'
  end.

(** Splits a hypothesis [nul_free (String c s) = true] in two. *)
Ltac nul_split H :=
  cbn [nul_free] in H; apply andb_true_iff in H;
  let Hc := fresh "Hc" in
  let Hr := fresh "Hr" in
  destruct H as [Hc Hr];
  apply negb_true_iff in Hc; apply Z.eqb_neq in Hc.

Definition opt_nul_free (o : mode_opt) : bool :=
  nul_free (name o)
  && match alias o with
     | Some a => nul_free a
     | None => true
     end.

(** What a run of handlers does to the settings: for each setting, the
    value it was last set to, if it was set at all. *)
Record Override : Type := mkOverride {
  ov_indent_type : option GeanyIndentType;
  ov_indent_width : option Z;
  ov_line_wrapping : option Z;
  ov_wrap_mode : option Z;
  ov_encoding : option string
}.

Definition or_else {A : Type} (o : option A) (a : A) : A :=
  match o with
  | Some x => x
  | None => a
  end.

Definition apply_override (o : Override) (c : Config) : Config :=
  mkConfig (or_else (ov_indent_type o) (cfg_indent_type c))
    (or_else (ov_indent_width o) (cfg_indent_width c))
    (or_else (ov_line_wrapping o) (cfg_line_wrapping c))
    (or_else (ov_wrap_mode o) (cfg_wrap_mode c))
    (or_else (ov_encoding o) (cfg_encoding c)).

Definition later {A : Type} (o2 o1 : option A) : option A :=
  match o2 with
  | Some x => Some x
  | None => o1
  end.

(** [o1] first, [o2] after it. *)
Definition override_then (o1 o2 : Override) : Override :=
  mkOverride (later (ov_indent_type o2) (ov_indent_type o1))
    (later (ov_indent_width o2) (ov_indent_width o1))
    (later (ov_line_wrapping o2) (ov_line_wrapping o1))
    (later (ov_wrap_mode o2) (ov_wrap_mode o1))
    (later (ov_encoding o2) (ov_encoding o1)).

Definition no_override : Override := mkOverride None None None None None.

(** A step of the pipeline is a setter when it leaves the text and the
    validity of the document alone and changes the settings by an
    override that does not depend on the document. *)
Definition setter (f : GeanyDocument -> GeanyDocument) : Prop :=
  exists o : Override,
    forall doc,
      is_valid (f doc) = is_valid doc
      /\ sci_text (sci (editor (f doc))) = sci_text (sci (editor doc))
      /\ config (f doc) = apply_override o (config doc).

(** The number a string of decimal digits writes, read from the left. *)
Fixpoint decimal_value (s : string) (acc : Z) : Z :=
  match s with
  | EmptyString => acc
  | String c s' => decimal_value s' (acc * 10 + (code c - 48))
  end.

Fixpoint all_digits (s : string) : bool :=
  match s with
  | EmptyString => true
  | String c s' => g_ascii_isdigit c && all_digits s'
  end.



(** No byte of the string is one of the bytes of [set]. *)
Fixpoint none_in (set s : string) : bool :=
  match s with
  | EmptyString => true
  | String c s' => negb (mem_char c set) && none_in set s'
  end.

(** Two lines that differ at most in which byte of [set] stands at a
    place where both have one. *)
Fixpoint same_fields (set s t : string) : bool :=
  match s, t with
  | EmptyString, EmptyString => true
  | String a s', String b t' =>
      (if mem_char a set then mem_char b set
       else Ascii.eqb a b)
      && same_fields set s' t'
  | _, _ => false
  end.

(** The string is empty or starts with a byte that is no decimal
    digit. *)
Definition starts_no_digit (t : string) : bool :=
  match t with
  | EmptyString => true
  | String c _ => negb (g_ascii_isdigit c)
  end.

(** The flag of the editor and the wrap mode of Scintilla say the same:
    both off or both on. *)
Definition wrap_consistent (doc : GeanyDocument) : bool :=
  Bool.eqb (line_wrapping (editor doc) =? 0)
    (sci_wrap_mode (sci (editor doc)) =? SC_WRAP_NONE).

Definition is_reload (c : host_call) : bool :=
  match c with
  | Document_reload_force _ => true
  | _ => false
  end.

(** The encoding a run of host calls leaves, [enc] being the one before
    it. *)
Definition last_encoding (l : list host_call) (enc : string) : string :=
  fold_left
    (fun e c => match c with
                | Document_set_encoding s => s
                | _ => e
                end)
    l enc.

(** What the pipeline may do to a document that started as [doc0]: add
    host calls, none of them a reload, and leave the encoding that the
    last [document_set_encoding] among them gave. *)
Definition calls_extend (doc0 doc : GeanyDocument) : Prop :=
  exists l : list host_call,
    calls doc = (calls doc0 ++ l)%list
    /\ forallb (fun c => negb (is_reload c)) l = true
    /\ encoding doc = last_encoding l (encoding doc0).

Definition is_int_arg (a : mode_opt_arg) : bool :=
  match a with
  | MODE_OPT_ARG_INT => true
  | _ => false
  end.

(** The token is cut into a key and a value and the key matches an
    integer option of the table. *)
Definition integer_token (opt : string) : bool :=
  match g_strsplit opt "=" 2 with
  | Some [key; _] =>
      existsb (fun o => opt_matches o key && is_int_arg (arg_type o)) opts
  | _ => false
  end.

(** * Properties *)

(** ** The GLib functions on some inputs *)

Example g_strsplit_bare_flag : g_strsplit "et" "=" 2 = Some ["et"].
Proof. reflexivity. Qed.

Example g_strsplit_key_value : g_strsplit "ts=4" "=" 2 = Some ["ts"; "4"].
Proof. reflexivity. Qed.

Example g_strsplit_two_pieces :
  g_strsplit "a=b=c" "=" 2 = Some ["a"; "b=c"]
  /\ g_strsplit "a=b=c" "=" 0 = Some ["a"; "b"; "c"].
Proof. split; reflexivity. Qed.

Example g_strsplit_empty_pieces :
  g_strsplit "" "=" 2 = Some []
  /\ g_strsplit "=" "=" 2 = Some [""; ""]
  /\ g_strsplit "x" "" 2 = None.
Proof. repeat split. Qed.

Example g_strsplit_set_fields :
  g_strsplit_set "// vim: et ts=2 sw=2" ": ," 0
  = ["//"; "vim"; ""; "et"; "ts=2"; "sw=2"]
  /\ g_strsplit_set "" ": ," 0 = []
  /\ g_strsplit_set "a,b" ": ," 1 = ["a,b"].
Proof. repeat split. Qed.

Example g_strstrip_line :
  g_strstrip (String "009" "  a b " ++ String "013" (String "010" "")) = "a b".
Proof. reflexivity. Qed.

Example g_ascii_strcasecmp_case :
  g_ascii_strcasecmp "tabstop" "TabStop" = 0
  /\ g_ascii_strcasecmp "ts" "sts" = 1
  /\ g_ascii_strcasecmp "ts" "tsx" = -120.
Proof. repeat split. Qed.

Example g_ascii_strtoull_values :
  map (fun s => g_ascii_strtoull s 10)
    ["4"; ""; "abc"; "12x"; " 7"; "-5"; "18446744073709551615";
     "18446744073709551616"]
  = [4; 0; 0; 12; 7; 18446744073709551611; 18446744073709551615;
     18446744073709551615].
Proof. reflexivity. Qed.

Example to_gint_wraps :
  map to_gint [4; 2147483647; 2147483648; 18446744073709551611]
  = [4; 2147483647; -2147483648; -5].
Proof. reflexivity. Qed.

(** ** Strings *)

Lemma append_assoc (a b c : string) : (a ++ b) ++ c = a ++ (b ++ c).
Proof. induction a as [|x a IH]; simpl; [reflexivity | now rewrite IH]. Qed.

Lemma prefix_iff (n h : string) :
  String.prefix n h = true <-> exists b, h = n ++ b.
Proof.
  revert h; induction n as [|x n IH]; intros h.
  - destruct h; simpl; split; eauto.
  - destruct h as [|y h]; simpl.
    + split; [discriminate | intros [b Hb]; discriminate].
    + destruct (ascii_dec x y) as [->|Hxy].
      * rewrite IH. split; intros [b Hb]; exists b; congruence.
      * split; [discriminate | intros [b Hb]; congruence].
Qed.

Lemma strstr_found (h n : string) :
  strstr h n <> None <-> exists a b, h = a ++ n ++ b.
Proof.
  induction h as [|y h IH].
  - unfold strstr. destruct (String.prefix n "") eqn:E.
    + apply prefix_iff in E. destruct E as [b Hb].
      split; [intros _; exists "", b; exact Hb | discriminate].
    + split; [congruence|]. intros [a [b Hab]].
      destruct a; simpl in Hab.
      * assert (String.prefix n "" = true) by (apply prefix_iff; eauto).
        congruence.
      * discriminate.
  - cbn [strstr]. destruct (String.prefix n (String y h)) eqn:E.
    + apply prefix_iff in E. destruct E as [b Hb].
      split; [intros _; exists "", b; exact Hb | discriminate].
    + destruct (strstr h n) as [k|] eqn:Ek.
      * split; [intros _ | discriminate].
        destruct IH as [IH _]. destruct IH as [a [b Hab]]; [discriminate|].
        exists (String y a), b. simpl. now rewrite Hab.
      * split; [congruence|]. intros [a [b Hab]].
        destruct a as [|z a]; simpl in Hab.
        -- assert (String.prefix n (String y h) = true)
             by (apply prefix_iff; eauto).
           congruence.
        -- injection Hab as _ Hh. destruct IH as [_ IH].
           exfalso. apply IH; eauto.
Qed.

Lemma has_mode_pre_iff (pre : list string) (buf : string) :
  has_mode_pre pre buf = true
  <-> exists p a b, In p pre /\ buf = a ++ p ++ b.
Proof.
  induction pre as [|p pre IH]; simpl.
  - split; [discriminate | intros [p [a [b [[] _]]]]].
  - unfold g_strstr_len. simpl.
    destruct (strstr buf p) as [k|] eqn:E.
    + split; [intros _ | reflexivity].
      assert (H : strstr buf p <> None) by congruence.
      apply strstr_found in H. destruct H as [a [b Hab]].
      exists p, a, b. auto.
    + rewrite IH. split.
      * intros [q [a [b [Hq Hab]]]]. exists q, a, b. auto.
      * intros [q [a [b [[<-|Hq] Hab]]]].
        -- assert (H : strstr buf p <> None) by (apply strstr_found; eauto).
           congruence.
        -- exists q, a, b. auto.
Qed.

(** ** The scanner *)

Lemma empty_line_is_no_modeline : is_modeline "" = false.
Proof. reflexivity. Qed.

(** The loop over the lines looks for the first modeline among the
    [todo] lines that start at [line]. *)
Lemma scan_lines_find (todo line : nat) (doc : GeanyDocument) :
  scan_lines todo line doc
  = match find is_modeline
            (firstn todo (skipn line (sci_text (sci (editor doc))))) with
    | Some l => parse_options doc (g_strstrip l)
    | None => doc
    end.
Proof.
  revert line; induction todo as [|todo IH]; intros line.
  - reflexivity.
  - cbn [scan_lines]. unfold sci_get_line.
    set (text := sci_text (sci (editor doc))) in *.
    destruct (skipn line text) as [|l rest] eqn:E.
    + assert (Hlen : (List.length text <= line)%nat).
      { destruct (Nat.le_gt_cases (List.length text) line) as [H|H]; auto.
        apply (f_equal (@List.length string)) in E.
        rewrite length_skipn in E. simpl in E. lia. }
      rewrite nth_overflow by exact Hlen.
      fold (is_modeline ""). rewrite empty_line_is_no_modeline.
      rewrite IH. fold text.
      rewrite skipn_all2 by lia. now rewrite firstn_nil.
    + assert (Hnth : nth line text "" = l).
      { rewrite <- (firstn_skipn line text) at 1. rewrite E.
        assert (Hlen : (line <= List.length text)%nat).
        { destruct (Nat.le_gt_cases line (List.length text)); auto.
          rewrite skipn_all2 in E by lia. discriminate. }
        rewrite app_nth2; rewrite length_firstn, Nat.min_l by exact Hlen;
          [|lia].
        now rewrite Nat.sub_diag. }
      rewrite Hnth. cbn [firstn find]. fold (is_modeline l).
      destruct (is_modeline l); [reflexivity|].
      rewrite IH. fold text.
      replace (skipn (S line) text) with rest; [reflexivity|].
      change (S line) with (1 + line)%nat.
      rewrite <- skipn_skipn, E. reflexivity.
Qed.

Lemma firstn_min_length {A : Type} (n : nat) (l : list A) :
  firstn (Nat.min (List.length l) n) l = firstn n l.
Proof.
  destruct (Nat.le_gt_cases n (List.length l)) as [H|H].
  - now rewrite Nat.min_r.
  - rewrite Nat.min_l by lia. rewrite firstn_all, firstn_all2 by lia.
    reflexivity.
Qed.

(** [scan_document] parses the first modeline among the first 50 lines
    of a valid document and does nothing otherwise. *)
Lemma scan_document_find (doc : GeanyDocument) :
  scan_document doc
  = if is_valid doc then
      match find is_modeline (firstn 50 (sci_text (sci (editor doc)))) with
      | Some l => parse_options doc (g_strstrip l)
      | None => doc
      end
    else doc.
Proof.
  unfold scan_document. destruct (is_valid doc); [|reflexivity].
  cbn [negb]. rewrite scan_lines_find. unfold sci_get_line_count.
  cbn [skipn]. now rewrite firstn_min_length.
Qed.

Lemma find_first {A : Type} (f : A -> bool) (before after : list A) (x : A) :
  (forall y, In y before -> f y = false) -> f x = true ->
  find f (before ++ x :: after)%list = Some x.
Proof.
  intros Hb Hx. induction before as [|y before IH]; simpl.
  - now rewrite Hx.
  - rewrite (Hb y) by (left; reflexivity). apply IH.
    intros z Hz. apply Hb. right; exact Hz.
Qed.

Lemma find_none_iff {A : Type} (f : A -> bool) (l : list A) :
  (forall y, In y l -> f y = false) -> find f l = None.
Proof.
  intros H. induction l as [|y l IH]; simpl; [reflexivity|].
  rewrite (H y) by (left; reflexivity). apply IH.
  intros z Hz. apply H. right; exact Hz.
Qed.

(** A slot of the document array that holds no document is left alone. *)
Lemma scan_document_invalid (doc : GeanyDocument) :
  is_valid doc = false -> scan_document doc = doc.
Proof. intros H. unfold scan_document. now rewrite H. Qed.

Lemma is_modeline_iff (l : string) :
  is_modeline l = true
  <-> exists p a b, In p mode_pre /\ g_strstrip l = a ++ p ++ b.
Proof. unfold is_modeline. apply has_mode_pre_iff. Qed.

(** C5, as the claim states it, fails for a document that is not valid:
    its first line is a modeline, and parsing that line would change the
    document, but [scan_document] returns before it reads a line. *)
Lemma invalid_document_is_not_scanned :
  let doc := mkDocument false
               (mkEditor (mkSci ["# vim: ts=4"] SC_WRAP_NONE)
                  GEANY_INDENT_TYPE_TABS 8 0)
               "UTF-8" [] in
  is_modeline "# vim: ts=4" = true
  /\ indent_width (editor (parse_options doc "# vim: ts=4")) = 4
  /\ scan_document doc = doc
  /\ indent_width (editor (scan_document doc)) = 8.
Proof. repeat split. Qed.

(** C5, amended.  For a valid document, the scanner looks at the lines
    0 to min(line count, 50) - 1 only and in their order.  A line is a
    modeline exactly when its stripped text holds one of [" geany:"],
    [" vi:"], [" vim:"], [" ex:"] anywhere.  The first modeline in that
    range, and no other line, is handed to [parse_options], and the scan
    ends there; when the range holds no modeline the document is left as
    it is. *)
Theorem scan_document_first_modeline (doc : GeanyDocument) :
  is_valid doc = true ->
  let scanned := firstn 50 (sci_text (sci (editor doc))) in
  (List.length scanned = Nat.min (sci_get_line_count (sci (editor doc))) 50)
  /\ (forall l, is_modeline l = true
               <-> exists p a b, In p [" geany:"; " vi:"; " vim:"; " ex:"]
                                 /\ g_strstrip l = a ++ p ++ b)
  /\ (forall before l after,
        scanned = (before ++ l :: after)%list ->
        (forall l', In l' before -> is_modeline l' = false) ->
        is_modeline l = true ->
        scan_document doc = parse_options doc (g_strstrip l))
  /\ ((forall l, In l scanned -> is_modeline l = false) ->
      scan_document doc = doc).
Proof.
  intros Hv scanned. rewrite scan_document_find, Hv. fold scanned.
  split; [|split; [|split]].
  - unfold scanned, sci_get_line_count. rewrite length_firstn. lia.
  - intros l. apply is_modeline_iff.
  - intros before l after -> Hb Hl. now rewrite (find_first _ _ _ _ Hb Hl).
  - intros Hn. now rewrite (find_none_iff _ _ Hn).
Qed.

(** A modeline on the second line wins over one on the third. *)
Lemma scan_document_first_modeline_witness :
  let doc := sample_document
               ["#include <x.h>"; "/* vim: ts=4 */"; "// vim: ts=8"]
               GEANY_INDENT_TYPE_TABS 8 in
  scan_document doc = parse_options doc "/* vim: ts=4 */"
  /\ indent_width (editor (scan_document doc)) = 4.
Proof.
  intros doc.
  assert (H : scan_document doc = parse_options doc "/* vim: ts=4 */").
  { destruct (scan_document_first_modeline doc eq_refl) as [_ [_ [H _]]].
    apply (H ["#include <x.h>"] "/* vim: ts=4 */" ["// vim: ts=8"]).
    - reflexivity.
    - intros l' [<-|[]]. reflexivity.
    - reflexivity. }
  split; [exact H|]. rewrite H. reflexivity.
Defined.

(** C6.  When none of the first min(line count, 50) lines holds, once
    stripped, one of the prefixes, the pipeline changes no setting: the
    save hook leaves the document as it is (no host call at all), and
    the open hook only asks for the reload, so that indent type, indent
    width, line wrapping and encoding are what they were. *)
Theorem no_modeline_no_mutation (doc : GeanyDocument) :
  (forall l p a b,
     In l (firstn 50 (sci_text (sci (editor doc)))) ->
     In p [" geany:"; " vi:"; " vim:"; " ex:"] ->
     g_strstrip l <> a ++ p ++ b) ->
  on_document_save doc = doc
  /\ config (on_document_open doc) = config doc
  /\ calls (on_document_open doc)
     = (calls doc ++ [Document_reload_force (encoding doc)])%list.
Proof.
  intros H.
  assert (Hs : scan_document doc = doc).
  { rewrite scan_document_find. destruct (is_valid doc); [|reflexivity].
    rewrite find_none_iff; [reflexivity|].
    intros l Hl. destruct (is_modeline l) eqn:E; [|reflexivity].
    apply is_modeline_iff in E. destruct E as [p [a [b [Hp Hab]]]].
    exfalso. exact (H l p a b Hl Hp Hab). }
  unfold on_document_save, on_document_open. rewrite Hs.
  repeat split.
Qed.

(** ** Splitting a token at its first [=] *)

Lemma g_strsplit_loop_last (rounds : nat) (d rem : string) :
  g_strsplit_loop rounds d 1 rem = [rem].
Proof.
  destruct rounds as [|rounds]; [reflexivity|]. cbn [g_strsplit_loop].
  destruct (strstr rem d); reflexivity.
Qed.

Lemma length_str_drop (n : nat) (s : string) :
  String.length (str_drop n s) = (String.length s - n)%nat.
Proof.
  revert s; induction n as [|n IH]; intros s; simpl.
  - now rewrite Nat.sub_0_r.
  - destruct s as [|c s]; [reflexivity | apply IH].
Qed.

Lemma strstr_in_empty (d : string) : d <> "" -> strstr "" d = None.
Proof. intros H. destruct d; [congruence | reflexivity]. Qed.

(** The bound on the rounds of [g_strsplit] is never reached: any two
    bounds that are at least the length of what is left to split give
    the same pieces. *)
Lemma g_strsplit_loop_rounds (r1 r2 : nat) (d : string) (m : Z)
  (rem : string) :
  d <> "" ->
  (String.length rem <= r1)%nat -> (String.length rem <= r2)%nat ->
  g_strsplit_loop r1 d m rem = g_strsplit_loop r2 d m rem.
Proof.
  intros Hd. revert r2 m rem.
  assert (Hempty : forall r m, g_strsplit_loop r d m "" = [""]).
  { intros [|r] m; [reflexivity|]. cbn [g_strsplit_loop].
    now rewrite strstr_in_empty. }
  induction r1 as [|r1 IH]; intros r2 m rem H1 H2.
  - destruct rem; [|simpl in H1; lia]. now rewrite !Hempty.
  - destruct r2 as [|r2].
    + destruct rem; [|simpl in H2; lia]. now rewrite !Hempty.
    + cbn [g_strsplit_loop]. destruct (strstr rem d) as [off|] eqn:E;
        [|reflexivity].
      destruct (m - 1 =? 0); [reflexivity|]. f_equal.
      assert (Hne : rem <> "").
      { intros ->. rewrite strstr_in_empty in E by exact Hd. discriminate. }
      assert (Hlen : (1 <= String.length d)%nat)
        by (destruct d; [congruence | simpl; lia]).
      assert (Hrem : (1 <= String.length rem)%nat)
        by (destruct rem; [congruence | simpl; lia]).
      apply IH; rewrite length_str_drop; lia.
Qed.

Lemma str_take_app (a b : string) : str_take (String.length a) (a ++ b) = a.
Proof. induction a as [|x a IH]; simpl; [now destruct b | now rewrite IH]. Qed.

Lemma str_drop_app (a b : string) : str_drop (String.length a) (a ++ b) = b.
Proof. induction a as [|x a IH]; simpl; [reflexivity | exact IH]. Qed.

Lemma prefix_single (c x : ascii) (t : string) :
  String.prefix (String c "") (String x t)
  = if ascii_dec c x then true else false.
Proof.
  cbn [String.prefix]. destruct (ascii_dec c x); [|reflexivity].
  now destruct t.
Qed.

Lemma strstr_first_equals (key rest : string) :
  strstr key "=" = None ->
  strstr (key ++ String "=" rest) "=" = Some (String.length key).
Proof.
  induction key as [|x key IH]; intros H.
  - cbn [append strstr String.length]. rewrite prefix_single.
    destruct (ascii_dec "=" "=") as [_|N]; [reflexivity | now elim N].
  - cbn [strstr] in H. cbn [append strstr String.length].
    rewrite prefix_single in *.
    destruct (ascii_dec "=" x) as [_|_]; [discriminate|].
    destruct (strstr key "=") eqn:Ek; [discriminate|].
    now rewrite IH.
Qed.

Lemma g_strsplit_nonempty (s : string) :
  s <> "" ->
  g_strsplit s "=" 2 = Some (g_strsplit_loop (String.length s) "=" 2 s).
Proof. intros H. destruct s; [congruence | reflexivity]. Qed.

Lemma length_append (a b : string) :
  String.length (a ++ b) = (String.length a + String.length b)%nat.
Proof. induction a as [|x a IH]; simpl; [reflexivity | now rewrite IH]. Qed.

(** A token [key=val] whose key holds no [=] is split into [key] and
    [val], whatever [val] holds. *)
Lemma g_strsplit_key_val (key val : string) :
  strstr key "=" = None ->
  g_strsplit (key ++ String "=" val) "=" 2 = Some [key; val].
Proof.
  intros H. rewrite g_strsplit_nonempty by (destruct key; discriminate).
  rewrite length_append. cbn [String.length].
  rewrite Nat.add_succ_r. cbn [g_strsplit_loop].
  rewrite (strstr_first_equals key val H).
  change (2 - 1 =? 0) with false. cbv iota.
  rewrite str_take_app, g_strsplit_loop_last.
  change (String "=" val) with ("=" ++ val).
  rewrite <- append_assoc.
  rewrite <- (length_append key "="), str_drop_app. reflexivity.
Qed.

(** A token without [=] comes back from [g_strsplit] as a vector of one
    entry, so [kv[1]] is [NULL]. *)
Lemma g_strsplit_no_equals (opt : string) :
  strstr opt "=" = None -> opt <> "" -> g_strsplit opt "=" 2 = Some [opt].
Proof.
  intros H Hne. unfold g_strsplit. destruct opt as [|c t]; [congruence|].
  cbn [String.length g_strsplit_loop]. now rewrite H.
Qed.

(** ** The interpreter *)

Lemma app_one_neq {A : Type} (l : list A) (x : A) : (l ++ [x])%list <> l.
Proof.
  intros H. apply (f_equal (@List.length A)) in H.
  rewrite length_app in H. simpl in H. lia.
Qed.

Lemma record_call_neq (doc doc' : GeanyDocument) (c : host_call) :
  calls doc' = calls doc -> record_call doc' c <> doc.
Proof.
  intros Hc H. apply (f_equal calls) in H. simpl in H. rewrite Hc in H.
  exact (app_one_neq _ _ H).
Qed.

Lemma calls_longer_neq (doc doc' : GeanyDocument) (c : host_call)
  (l : list host_call) :
  calls doc' = (calls doc ++ c :: l)%list -> doc' <> doc.
Proof.
  intros Hc H. rewrite H in Hc.
  apply (f_equal (@List.length host_call)) in Hc.
  rewrite length_app in Hc. simpl in Hc. lia.
Qed.

(** Every handler calls the host at least once when it is given the kind
    of argument the table pairs it with. *)
Lemma opt_expand_tab_calls (doc : GeanyDocument) (i : Z) :
  opt_expand_tab doc (Arg_gint i) <> doc.
Proof. eapply (calls_longer_neq _ _ _ []). reflexivity. Qed.

Lemma opt_tab_stop_calls (doc : GeanyDocument) (i : Z) :
  calls (opt_tab_stop doc (Arg_gint i))
  = (calls doc ++ [Editor_set_indent_width i;
                   Editor_set_indent_type (indent_type (editor doc))])%list.
Proof. simpl. now rewrite <- app_assoc. Qed.

Lemma opt_tab_stop_neq (doc : GeanyDocument) (i : Z) :
  opt_tab_stop doc (Arg_gint i) <> doc.
Proof. eapply calls_longer_neq. apply opt_tab_stop_calls. Qed.

(** A token without [=] never reaches the table. *)
Lemma interpret_option_no_equals (doc : GeanyDocument) (opt : string) :
  strstr opt "=" = None -> interpret_option doc opt = doc.
Proof.
  intros H. unfold interpret_option. destruct opt as [|c t].
  - reflexivity.
  - rewrite g_strsplit_no_equals by (auto; discriminate). reflexivity.
Qed.

(** A token that starts with [=] has the empty key, which no entry of
    the table matches. *)
Lemma interpret_option_leading_equals (doc : GeanyDocument) (val : string) :
  interpret_option doc (String "=" val) = doc.
Proof.
  unfold interpret_option.
  pose proof (g_strsplit_key_val "" val eq_refl) as E.
  cbn [append] in E. rewrite E. reflexivity.
Qed.

(** ** Looking a key up in the table *)

Lemma code_nonneg (c : ascii) : 0 <= code c.
Proof. unfold code. lia. Qed.

Lemma tolower_zero (c : ascii) : g_ascii_tolower c = 0 -> code c = 0.
Proof.
  unfold g_ascii_tolower. pose proof (code_nonneg c).
  destruct (g_ascii_isupper c); lia.
Qed.

Lemma tolower_nul (c : ascii) : code c = 0 -> g_ascii_tolower c = 0.
Proof.
  intros H. unfold g_ascii_tolower, g_ascii_isupper. rewrite H. reflexivity.
Qed.

(** Two names that both compare equal to a key compare equal to each
    other. *)
Lemma strcasecmp_same_key (a b k : string) :
  nul_free a = true -> nul_free b = true ->
  g_ascii_strcasecmp a k = 0 -> g_ascii_strcasecmp b k = 0 ->
  g_ascii_strcasecmp a b = 0.
Proof.
  revert b k; induction a as [|x a IH]; intros b k Ha Hb Hak Hbk.
  - destruct b as [|y b]; [reflexivity|]. nul_split Hb.
    destruct k as [|z k]; cbn [g_ascii_strcasecmp] in *.
    + lia.
    + destruct (Z.eqb_spec (g_ascii_tolower y) (g_ascii_tolower z)) as [E|E].
      * assert (Hz : g_ascii_tolower z = 0) by (apply tolower_nul; lia).
        rewrite Hz in E. apply tolower_zero in E. contradiction.
      * lia.
  - nul_split Ha. destruct k as [|z k]; cbn [g_ascii_strcasecmp] in Hak.
    + lia.
    + destruct (Z.eqb_spec (g_ascii_tolower x) (g_ascii_tolower z)) as [E|E];
        [|lia].
      destruct b as [|y b]; cbn [g_ascii_strcasecmp] in *.
      * assert (Hz : g_ascii_tolower z = 0) by (apply tolower_nul; lia).
        rewrite Hz in E. apply tolower_zero in E. contradiction.
      * nul_split Hb.
        destruct (Z.eqb_spec (g_ascii_tolower y) (g_ascii_tolower z))
          as [E'|E']; [|lia].
        rewrite E, <- E', Z.eqb_refl. eapply IH; eauto.
Qed.

(** A name that compares equal to another name compares equal to the
    keys that name compares equal to. *)
Lemma strcasecmp_via_name (a b k : string) :
  nul_free a = true -> nul_free b = true ->
  g_ascii_strcasecmp a b = 0 -> g_ascii_strcasecmp b k = 0 ->
  g_ascii_strcasecmp a k = 0.
Proof.
  revert b k; induction a as [|x a IH]; intros b k Ha Hb Hab Hbk.
  - destruct b as [|y b]; [exact Hbk|]. nul_split Hb.
    cbn [g_ascii_strcasecmp] in Hab. lia.
  - nul_split Ha. destruct b as [|y b]; cbn [g_ascii_strcasecmp] in Hab.
    + lia.
    + nul_split Hb.
      destruct (Z.eqb_spec (g_ascii_tolower x) (g_ascii_tolower y)) as [E|E];
        [|lia].
      destruct k as [|z k]; cbn [g_ascii_strcasecmp] in *.
      * lia.
      * rewrite E.
        destruct (Z.eqb_spec (g_ascii_tolower y) (g_ascii_tolower z));
          [|lia].
        eapply IH; eauto.
Qed.

Lemma strcasecmp_swap_key (a n k : string) :
  nul_free a = true -> nul_free n = true ->
  g_ascii_strcasecmp n k = 0 ->
  (g_ascii_strcasecmp a k =? 0) = (g_ascii_strcasecmp a n =? 0).
Proof.
  intros Ha Hn Hnk.
  destruct (Z.eqb_spec (g_ascii_strcasecmp a k) 0) as [E|E];
    destruct (Z.eqb_spec (g_ascii_strcasecmp a n) 0) as [E'|E']; auto.
  - elim E'. eapply strcasecmp_same_key; eauto.
  - elim E. eapply strcasecmp_via_name; eauto.
Qed.

Lemma opt_matches_swap_key (o : mode_opt) (n k : string) :
  opt_nul_free o = true -> nul_free n = true ->
  g_ascii_strcasecmp n k = 0 ->
  opt_matches o k = opt_matches o n.
Proof.
  intros Ho Hn Hnk. unfold opt_nul_free in Ho.
  apply andb_true_iff in Ho. destruct Ho as [Hname Halias].
  unfold opt_matches.
  rewrite (strcasecmp_swap_key (name o) n k) by assumption.
  destruct (alias o) as [a|]; [|reflexivity].
  now rewrite (strcasecmp_swap_key a n k).
Qed.

(** The lookup of a key goes the way the lookup of any name does that
    compares equal to the key. *)
Lemma interpret_loop_swap_key (table : list mode_opt) (doc : GeanyDocument)
  (n k : string) (val : option string) :
  forallb opt_nul_free table = true -> nul_free n = true ->
  g_ascii_strcasecmp n k = 0 ->
  interpret_loop table doc k val = interpret_loop table doc n val.
Proof.
  intros Ht Hn Hnk. induction table as [|o table IH]; [reflexivity|].
  cbn [forallb] in Ht. apply andb_true_iff in Ht. destruct Ht as [Ho Ht].
  cbn [interpret_loop]. rewrite (opt_matches_swap_key o n k) by assumption.
  now rewrite IH.
Qed.

(** The three integer options, under their names and aliases, end at
    [opt_tab_stop] with the value parsed; without a value they end
    nowhere. *)
Lemma interpret_loop_integer (doc : GeanyDocument) (o : mode_opt)
  (key : string) (val : option string) :
  In o opts -> arg_type o = MODE_OPT_ARG_INT -> opt_matches o key = true ->
  cb o = opt_tab_stop
  /\ interpret_loop opts doc key val = dispatch o doc val.
Proof.
  intros Hin Hty Hm. unfold opt_matches in Hm.
  apply orb_true_iff in Hm.
  assert (Hall : forallb opt_nul_free opts = true) by reflexivity.
  cbn [opts In] in Hin.
  repeat (destruct Hin as [<-|Hin]; [try discriminate Hty|]);
    try contradiction;
    (split; [reflexivity|]);
    cbn [name alias] in Hm;
    (destruct Hm as [Hm|Hm]; apply Z.eqb_eq in Hm;
     match type of Hm with
     | g_ascii_strcasecmp ?n key = 0 =>
         rewrite (interpret_loop_swap_key opts doc n key val Hall eq_refl Hm)
     end;
     reflexivity).
Qed.

(** C1.  The code at the inputs of the claim: the bare flags ["et"] and
    ["noexpandtab"], as every token without [=], come back from
    [g_strsplit] without a second entry and are dropped before the table
    is looked at, although the expand-tab handler would have changed the
    document; ["ts=4"] reaches the tab-stop handler and sets the indent
    width to 4. *)
Theorem bare_flag_is_dropped (doc : GeanyDocument) :
  g_strsplit "et" "=" 2 = Some ["et"]
  /\ interpret_option doc "et" = doc
  /\ interpret_option doc "noexpandtab" = doc
  /\ (forall opt, strstr opt "=" = None -> interpret_option doc opt = doc)
  /\ opt_expand_tab doc (Arg_gint 1) <> doc
  /\ opt_expand_tab doc (Arg_gint 0) <> doc
  /\ interpret_option doc "ts=4" = opt_tab_stop doc (Arg_gint 4)
  /\ indent_width (editor (interpret_option doc "ts=4")) = 4.
Proof.
  split; [reflexivity|]. split; [reflexivity|]. split; [reflexivity|].
  split; [intros opt; apply interpret_option_no_equals|].
  split; [apply opt_expand_tab_calls|].
  split; [apply opt_expand_tab_calls|].
  split; reflexivity.
Qed.

(** C2.  The code at the inputs of the claim: a token that starts with
    [=] is a no-op, ["=4"] among them, and the tokens after it are still
    interpreted; but ["ts="] is split into the key ["ts"] and the empty
    value, reaches the tab-stop handler with 0 and sets the indent width
    to 0. *)
Theorem trailing_equals_is_dispatched (doc : GeanyDocument) :
  (forall val, interpret_option doc (String "=" val) = doc)
  /\ interpret_option doc "=4" = doc
  /\ parse_options doc "# vim:=4:sw=3" = opt_tab_stop doc (Arg_gint 3)
  /\ g_strsplit "ts=" "=" 2 = Some ["ts"; ""]
  /\ interpret_option doc "ts=" = opt_tab_stop doc (Arg_gint 0)
  /\ interpret_option doc "ts=" <> doc
  /\ indent_width (editor (interpret_option doc "ts=")) = 0
  /\ calls (interpret_option doc "ts=")
     = (calls doc ++ [Editor_set_indent_width 0;
                      Editor_set_indent_type (indent_type (editor doc))])%list.
Proof.
  split; [apply interpret_option_leading_equals|].
  do 4 (split; [reflexivity|]).
  split; [apply (opt_tab_stop_neq doc 0)|].
  split; [reflexivity|]. apply (opt_tab_stop_calls doc 0).
Qed.

(** ** Reading the integer *)

Lemma digit_bounds (c : ascii) :
  g_ascii_isdigit c = true -> 0 <= code c - 48 <= 9.
Proof. unfold g_ascii_isdigit. lia. Qed.

Lemma digit_value_digit (c : ascii) :
  g_ascii_isdigit c = true -> digit_value c = Some (code c - 48).
Proof. intros H. unfold digit_value. now rewrite H. Qed.

Lemma digit_value_other (c : ascii) :
  g_ascii_isdigit c = false ->
  match digit_value c with
  | Some d => 10 <= d
  | None => True
  end.
Proof.
  intros H. unfold digit_value. rewrite H.
  unfold g_ascii_isupper, g_ascii_islower.
  destruct ((65 <=? code c) && (code c <=? 90)) eqn:E1; [lia|].
  destruct ((97 <=? code c) && (code c <=? 122)) eqn:E2; [lia | exact I].
Qed.

Lemma decimal_value_mono (s : string) (acc : Z) :
  all_digits s = true -> 0 <= acc -> acc <= decimal_value s acc.
Proof.
  revert acc; induction s as [|c s IH]; intros acc Hd Hacc; simpl; [lia|].
  cbn [all_digits] in Hd. apply andb_true_iff in Hd. destruct Hd as [Hc Hs].
  pose proof (digit_bounds c Hc).
  specialize (IH (acc * 10 + (code c - 48)) Hs). lia.
Qed.

Lemma parse_digits_decimal (s : string) (acc : Z) (n : nat) :
  all_digits s = true -> 0 <= acc -> decimal_value s acc <= G_MAXUINT64 ->
  parse_digits 10 s acc false n
  = (decimal_value s acc, false, (n + String.length s)%nat).
Proof.
  revert acc n; induction s as [|c s IH]; intros acc n Hd Hacc Hmax.
  - simpl. now rewrite Nat.add_0_r.
  - cbn [all_digits] in Hd. apply andb_true_iff in Hd.
    destruct Hd as [Hc Hs]. pose proof (digit_bounds c Hc) as Hb.
    cbn [parse_digits decimal_value String.length] in *.
    rewrite (digit_value_digit c Hc).
    pose proof (decimal_value_mono s (acc * 10 + (code c - 48)) Hs) as Hm.
    replace (10 <=? code c - 48) with false by lia.
    change (G_MAXUINT64 / 10) with 1844674407370955161.
    change (G_MAXUINT64 mod 10) with 5.
    unfold G_MAXUINT64 in *.
    replace ((1844674407370955161 <? acc)
             || ((acc =? 1844674407370955161) && (5 <? code c - 48)))
      with false by lia.
    rewrite IH by (auto; lia). f_equal. lia.
Qed.

Lemma g_strchug_digit (c : ascii) (s : string) :
  g_ascii_isdigit c = true -> g_strchug (String c s) = String c s.
Proof.
  intros H. cbn [g_strchug].
  replace (g_ascii_isspace c) with false; [reflexivity|].
  unfold g_ascii_isdigit in H. unfold g_ascii_isspace. lia.
Qed.

Lemma strtoull_skip_digit (c : ascii) (s : string) :
  g_ascii_isdigit c = true -> strtoull_skip (String c s) = String c s.
Proof.
  intros H. cbn [strtoull_skip].
  replace (strtoull_isspace c) with false; [reflexivity|].
  unfold g_ascii_isdigit in H. unfold strtoull_isspace. lia.
Qed.

Lemma g_strchomp_digits (s : string) :
  all_digits s = true -> g_strchomp s = s.
Proof.
  induction s as [|c s IH]; intros Hd; [reflexivity|].
  cbn [all_digits] in Hd. apply andb_true_iff in Hd. destruct Hd as [Hc Hs].
  cbn [g_strchomp]. rewrite (IH Hs).
  destruct s; [|reflexivity].
  replace (g_ascii_isspace c) with false; [reflexivity|].
  unfold g_ascii_isdigit in Hc. unfold g_ascii_isspace. lia.
Qed.

Lemma g_strstrip_digits (s : string) :
  all_digits s = true -> g_strstrip s = s.
Proof.
  intros Hd. unfold g_strstrip. destruct s as [|c s]; [reflexivity|].
  pose proof Hd as Hd'. cbn [all_digits] in Hd'.
  apply andb_true_iff in Hd'. destruct Hd' as [Hc _].
  rewrite (g_strchug_digit c s Hc). now apply g_strchomp_digits.
Qed.

Lemma read_sign_digit (c : ascii) (s : string) :
  g_ascii_isdigit c = true -> read_sign (String c s) = (false, String c s).
Proof.
  intros H. unfold read_sign.
  destruct (Ascii.eqb_spec c "-") as [->|_]; [discriminate|].
  destruct (Ascii.eqb_spec c "+") as [->|_]; [discriminate|]. reflexivity.
Qed.

(** A string of decimal digits is read as the number it writes, as long
    as that number fits 64 bits. *)
Lemma g_ascii_strtoull_decimal (s : string) :
  all_digits s = true -> s <> "" -> decimal_value s 0 <= G_MAXUINT64 ->
  g_ascii_strtoull s 10 = decimal_value s 0.
Proof.
  intros Hd Hne Hmax. destruct s as [|c s]; [congruence|].
  pose proof Hd as Hd'. cbn [all_digits] in Hd'.
  apply andb_true_iff in Hd'. destruct Hd' as [Hc _].
  unfold g_ascii_strtoull.
  rewrite (strtoull_skip_digit c s Hc), (read_sign_digit c s Hc).
  rewrite (parse_digits_decimal (String c s) 0 0 Hd) by (auto; lia).
  reflexivity.
Qed.


Lemma to_gint_small (z : Z) : 0 <= z < 2 ^ 31 -> to_gint z = z.
Proof. intros H. unfold to_gint. rewrite Z.mod_small; lia. Qed.

(** C8.  The handler shared by tabstop, softtabstop and shiftwidth, run
    with the integer N: the indent width is N afterwards and the indent
    type is the one the document had before; line wrapping, wrap mode,
    encoding and text are not touched.  The three integer options of the
    table are the ones that use it. *)
Theorem opt_tab_stop_keeps_indent_type (doc : GeanyDocument) (N : Z) :
  let doc' := opt_tab_stop doc (Arg_gint N) in
  indent_width (editor doc') = N
  /\ indent_type (editor doc') = indent_type (editor doc)
  /\ line_wrapping (editor doc') = line_wrapping (editor doc)
  /\ sci (editor doc') = sci (editor doc)
  /\ encoding doc' = encoding doc
  /\ calls doc'
     = (calls doc ++ [Editor_set_indent_width N;
                      Editor_set_indent_type (indent_type (editor doc))])%list
  /\ (forall o, In o opts ->
        In (name o) ["tabstop"; "softtabstop"; "shiftwidth"] ->
        cb o = opt_tab_stop /\ arg_type o = MODE_OPT_ARG_INT).
Proof.
  intros doc'. repeat (split; [reflexivity|]).
  split; [apply opt_tab_stop_calls|].
  intros o Hin Hname. cbn [opts In] in Hin.
  repeat (destruct Hin as [<-|Hin]; [cbn [name In] in Hname|]);
    try contradiction;
    try (split; reflexivity);
    repeat (destruct Hname as [Hname|Hname]; [discriminate Hname|]);
    contradiction.
Qed.

(** C10.  The empty token, which two delimiters in a row produce, runs
    no handler and changes nothing: [g_strsplit] gives the empty vector
    for it, so there is no key.  A list of tokens is interpreted as the
    same list without its empty tokens is; ["a::b"] is split into ["a"],
    the empty field and ["b"]. *)
Theorem empty_token_is_noop (doc : GeanyDocument) :
  interpret_option doc "" = doc
  /\ (forall before after,
        fold_left interpret_option (before ++ "" :: after)%list doc
        = fold_left interpret_option (before ++ after)%list doc)
  /\ g_strsplit_set "a::b" ": ," 0 = ["a"; ""; "b"]
  /\ option_tokens "# vim:ts=4::sw=2" = ["vim"; "ts=4"; ""; "sw=2"]
  /\ parse_options doc "# vim:ts=4::sw=2" = parse_options doc "# vim:ts=4:sw=2".
Proof.
  split; [reflexivity|]. split; [|repeat split].
  intros before after. rewrite !fold_left_app. reflexivity.
Qed.

(** ** The tokenizer *)

(** C4, as the claim states it, fails: the word ["vim"] between the
    comment sign and the colon is a field of its own and is not the
    first one, so it stays among the tokens. *)
Lemma tokens_keep_marker_word :
  option_tokens "# vim:noexpandtab sw=4 ts=4"
  = ["vim"; "noexpandtab"; "sw=4"; "ts=4"]
  /\ option_tokens "# vim:noexpandtab sw=4 ts=4"
     <> ["noexpandtab"; "sw=4"; "ts=4"].
Proof. split; [reflexivity | discriminate]. Qed.

(** C4, amended.  The line ["# vim:noexpandtab sw=4 ts=4"] is split at
    every [:], space and comma into ["#"], ["vim"], ["noexpandtab"],
    ["sw=4"], ["ts=4"]; the first field, the comment sign, is left out
    and the other four are handed to the interpreter in their order.
    The interpreter knows no option ["vim"] and ignores that token. *)
Theorem tokens_of_modeline (doc : GeanyDocument) :
  g_strsplit_set "# vim:noexpandtab sw=4 ts=4" ": ," 0
  = ["#"; "vim"; "noexpandtab"; "sw=4"; "ts=4"]
  /\ option_tokens "# vim:noexpandtab sw=4 ts=4"
     = ["vim"; "noexpandtab"; "sw=4"; "ts=4"]
  /\ parse_options doc "# vim:noexpandtab sw=4 ts=4"
     = interpret_option
         (interpret_option
            (interpret_option (interpret_option doc "vim") "noexpandtab")
            "sw=4")
         "ts=4"
  /\ interpret_option doc "vim" = doc.
Proof. repeat split. Qed.

(** ** The hooks *)

(** C3.  The code on the document of the claim: the line
    ["// vim: et ts=2 sw=2"] is found and split into ["vim"], the empty
    token, ["et"], ["ts=2"] and ["sw=2"]; the two integer tokens set the
    indent width to 2, the token ["et"] is dropped, and the indent type
    stays what it was: nothing sets it to spaces. *)
Theorem modeline_et_ts_sw (doc : GeanyDocument) (rest : list string) :
  is_valid doc = true ->
  sci_text (sci (editor doc)) = "// vim: et ts=2 sw=2" :: rest ->
  option_tokens "// vim: et ts=2 sw=2" = ["vim"; ""; "et"; "ts=2"; "sw=2"]
  /\ on_document_save doc
     = opt_tab_stop (opt_tab_stop doc (Arg_gint 2)) (Arg_gint 2)
  /\ indent_width (editor (on_document_save doc)) = 2
  /\ indent_type (editor (on_document_save doc)) = indent_type (editor doc)
  /\ indent_width (editor (on_document_open doc)) = 2
  /\ indent_type (editor (on_document_open doc)) = indent_type (editor doc).
Proof.
  intros Hv Ht.
  assert (Hs : scan_document doc
               = opt_tab_stop (opt_tab_stop doc (Arg_gint 2)) (Arg_gint 2)).
  { rewrite scan_document_find, Hv, Ht. reflexivity. }
  unfold on_document_open, on_document_save. rewrite Hs.
  repeat split.
Qed.

(** A document that indents with tabs still does after the hook. *)
Lemma modeline_et_ts_sw_witness :
  let doc := sample_document ["// vim: et ts=2 sw=2"] GEANY_INDENT_TYPE_TABS 8 in
  indent_width (editor (on_document_save doc)) = 2
  /\ indent_type (editor (on_document_save doc)) = GEANY_INDENT_TYPE_TABS.
Proof.
  intros doc.
  destruct (modeline_et_ts_sw doc [] eq_refl eq_refl)
    as [_ [_ [Hw [Ht _]]]].
  split; [exact Hw | exact Ht].
Defined.

(** A modeline needs a space before the marker word: ["vim: ts=4"] at
    the start of a line is none. *)
Lemma no_modeline_no_mutation_witness :
  let doc := sample_document ["int main(void)"; "vim: ts=4"; "{ }"]
               GEANY_INDENT_TYPE_TABS 8 in
  on_document_save doc = doc /\ config (on_document_open doc) = config doc.
Proof.
  intros doc.
  assert (H : forall l p a b,
             In l (firstn 50 (sci_text (sci (editor doc)))) ->
             In p [" geany:"; " vi:"; " vim:"; " ex:"] ->
             g_strstrip l <> a ++ p ++ b).
  { intros l p a b Hl Hp Hab.
    assert (E : is_modeline l = true)
      by (apply is_modeline_iff; exists p, a, b; auto).
    cbn in Hl. destruct Hl as [<-|[<-|[<-|[]]]]; discriminate E. }
  destruct (no_modeline_no_mutation doc H) as [Hs [Ho _]].
  split; [exact Hs | exact Ho].
Defined.

(** ** Running the pipeline again *)

Lemma apply_override_twice (o : Override) (c : Config) :
  apply_override o (apply_override o c) = apply_override o c.
Proof.
  destruct o as [[t|] [w|] [lw|] [wm|] [e|]]; reflexivity.
Qed.

Lemma apply_override_then (o1 o2 : Override) (c : Config) :
  apply_override o2 (apply_override o1 c)
  = apply_override (override_then o1 o2) c.
Proof.
  destruct o2 as [[t|] [w|] [lw|] [wm|] [e|]]; reflexivity.
Qed.

Lemma setter_id : setter (fun doc => doc).
Proof. exists no_override. intros doc. repeat split. Qed.

Lemma setter_compose (f g : GeanyDocument -> GeanyDocument) :
  setter f -> setter g -> setter (fun doc => g (f doc)).
Proof.
  intros [o1 Hf] [o2 Hg]. exists (override_then o1 o2). intros doc.
  destruct (Hf doc) as [Hv [Ht Hc]].
  destruct (Hg (f doc)) as [Hv' [Ht' Hc']].
  split; [congruence|]. split; [congruence|].
  rewrite Hc', Hc. apply apply_override_then.
Qed.

Lemma setter_opt_expand_tab (arg : cb_arg) :
  setter (fun doc => opt_expand_tab doc arg).
Proof.
  destruct arg as [i|s]; [|apply setter_id].
  exists (mkOverride
            (Some (if i =? 0 then GEANY_INDENT_TYPE_TABS
                   else GEANY_INDENT_TYPE_SPACES)) None None None None).
  intros doc. repeat split.
Qed.

Lemma setter_opt_tab_stop (arg : cb_arg) :
  setter (fun doc => opt_tab_stop doc arg).
Proof.
  destruct arg as [i|s]; [|apply setter_id].
  exists (mkOverride None (Some i) None None None).
  intros doc. repeat split.
Qed.

Lemma setter_opt_wrap (arg : cb_arg) : setter (fun doc => opt_wrap doc arg).
Proof.
  destruct arg as [i|s]; [|apply setter_id].
  exists (mkOverride None None (Some i)
            (Some (if i =? 0 then SC_WRAP_NONE else SC_WRAP_WORD)) None).
  intros doc. repeat split.
Qed.

Lemma setter_opt_enc (arg : cb_arg) : setter (fun doc => opt_enc doc arg).
Proof.
  destruct arg as [i|s]; [apply setter_id|].
  exists (mkOverride None None None None (Some s)).
  intros doc. repeat split.
Qed.

Lemma setter_opts (o : mode_opt) (arg : cb_arg) :
  In o opts -> setter (fun doc => cb o doc arg).
Proof.
  intros Hin. cbn [opts In] in Hin.
  repeat (destruct Hin as [<-|Hin];
          [first [ apply setter_opt_expand_tab | apply setter_opt_tab_stop
                 | apply setter_opt_wrap | apply setter_opt_enc ]|]).
  contradiction.
Qed.

Lemma setter_dispatch (o : mode_opt) (val : option string) :
  In o opts -> setter (fun doc => dispatch o doc val).
Proof.
  intros Hin. unfold dispatch.
  destruct (arg_type o); try destruct val;
    first [ apply setter_id | apply (setter_opts o _ Hin) ].
Qed.

Lemma setter_interpret_loop (table : list mode_opt) (key : string)
  (val : option string) :
  (forall o, In o table -> In o opts) ->
  setter (fun doc => interpret_loop table doc key val).
Proof.
  induction table as [|o table IH]; intros Hsub; cbn [interpret_loop].
  - apply setter_id.
  - destruct (opt_matches o key).
    + apply setter_dispatch. apply Hsub. left; reflexivity.
    + apply IH. intros o' Ho'. apply Hsub. right; exact Ho'.
Qed.

(** Whatever the token, interpreting it sets settings to values that the
    token alone decides. *)
Lemma setter_interpret_option (opt : string) :
  setter (fun doc => interpret_option doc opt).
Proof.
  unfold interpret_option. destruct (g_strsplit opt "=" 2) as [kv|].
  - destruct (nth_error kv 0) as [key|]; [|apply setter_id].
    destruct (nth_error kv 1) as [val|]; [|apply setter_id].
    apply setter_interpret_loop. auto.
  - apply setter_interpret_loop. auto.
Qed.

Lemma setter_fold_tokens (toks : list string) :
  setter (fun doc => fold_left interpret_option toks doc).
Proof.
  induction toks as [|t toks IH]; cbn [fold_left].
  - apply setter_id.
  - apply (setter_compose (fun doc => interpret_option doc t)
             (fun doc => fold_left interpret_option toks doc)).
    + apply setter_interpret_option.
    + exact IH.
Qed.

Lemma setter_parse_options (buf : string) :
  setter (fun doc => parse_options doc buf).
Proof. unfold parse_options. apply setter_fold_tokens. Qed.

(** What [scan_document] does to a document is a setter that the text
    and the validity of the document decide. *)
Lemma scan_document_setter (valid : bool) (text : list string) :
  exists o : Override,
    forall doc,
      is_valid doc = valid -> sci_text (sci (editor doc)) = text ->
      is_valid (scan_document doc) = valid
      /\ sci_text (sci (editor (scan_document doc))) = text
      /\ config (scan_document doc) = apply_override o (config doc).
Proof.
  destruct valid.
  - destruct (find is_modeline (firstn 50 text)) as [l|] eqn:E.
    + destruct (setter_parse_options (g_strstrip l)) as [o Ho].
      exists o. intros doc Hv Ht. rewrite scan_document_find, Hv, Ht, E.
      destruct (Ho doc) as [Hv' [Ht' Hc]]. repeat split; congruence.
    + exists no_override. intros doc Hv Ht.
      rewrite scan_document_find, Hv, Ht, E. repeat split; assumption.
  - exists no_override. intros doc Hv Ht.
    rewrite scan_document_invalid by exact Hv. repeat split; assumption.
Qed.

Lemma document_reload_force_frame (doc : GeanyDocument) (enc : string) :
  is_valid (document_reload_force doc enc) = is_valid doc
  /\ sci_text (sci (editor (document_reload_force doc enc)))
     = sci_text (sci (editor doc))
  /\ config (document_reload_force doc enc) = config doc.
Proof. repeat split. Qed.

(** The same for the open hook. *)
Lemma on_document_open_setter (valid : bool) (text : list string) :
  exists o : Override,
    forall doc,
      is_valid doc = valid -> sci_text (sci (editor doc)) = text ->
      is_valid (on_document_open doc) = valid
      /\ sci_text (sci (editor (on_document_open doc))) = text
      /\ config (on_document_open doc) = apply_override o (config doc).
Proof.
  destruct (scan_document_setter valid text) as [o Ho]. exists o.
  intros doc Hv Ht. destruct (Ho doc Hv Ht) as [Hv' [Ht' Hc]].
  unfold on_document_open.
  destruct (document_reload_force_frame (scan_document doc)
              (encoding (scan_document doc))) as [Hv2 [Ht2 Hc2]].
  repeat split; congruence.
Qed.

(** C9.  Each hook leaves the lines of the document as they are, and
    running it a second time, on any document with these lines and the
    settings the first run left, ends with the settings the first run
    left; in particular the hook run twice in a row gives the settings
    (indent type, indent width, line wrapping, wrap mode, encoding) that
    one run gives. *)
Theorem pipeline_idempotent (doc : GeanyDocument) :
  sci_text (sci (editor (on_document_save doc))) = sci_text (sci (editor doc))
  /\ sci_text (sci (editor (on_document_open doc)))
     = sci_text (sci (editor doc))
  /\ config (on_document_save (on_document_save doc))
     = config (on_document_save doc)
  /\ config (on_document_open (on_document_open doc))
     = config (on_document_open doc)
  /\ (forall doc2,
        is_valid doc2 = is_valid doc ->
        sci_text (sci (editor doc2)) = sci_text (sci (editor doc)) ->
        (config doc2 = config (on_document_save doc) ->
         config (on_document_save doc2) = config (on_document_save doc))
        /\ (config doc2 = config (on_document_open doc) ->
            config (on_document_open doc2) = config (on_document_open doc))).
Proof.
  destruct (scan_document_setter (is_valid doc)
              (sci_text (sci (editor doc)))) as [os Hs].
  destruct (on_document_open_setter (is_valid doc)
              (sci_text (sci (editor doc)))) as [oo Ho].
  destruct (Hs doc eq_refl eq_refl) as [Hv1 [Ht1 Hc1]].
  destruct (Ho doc eq_refl eq_refl) as [Hv2 [Ht2 Hc2]].
  unfold on_document_save in *.
  split; [exact Ht1|]. split; [exact Ht2|]. split; [|split].
  - destruct (Hs (scan_document doc) Hv1 Ht1) as [_ [_ Hc]].
    rewrite Hc, Hc1. apply apply_override_twice.
  - destruct (Ho (on_document_open doc) Hv2 Ht2) as [_ [_ Hc]].
    rewrite Hc, Hc2. apply apply_override_twice.
  - intros doc2 Hv Ht. split; intros Hc.
    + destruct (Hs doc2 Hv Ht) as [_ [_ Hc']].
      rewrite Hc', Hc, Hc1. apply apply_override_twice.
    + destruct (Ho doc2 Hv Ht) as [_ [_ Hc']].
      rewrite Hc', Hc, Hc2. apply apply_override_twice.
Qed.

(** * Further properties of the interpreter *)

Lemma interpret_option_key_val (doc : GeanyDocument) (key val : string) :
  strstr key "=" = None ->
  interpret_option doc (key ++ String "=" val)
  = interpret_loop opts doc key (Some val).
Proof.
  intros H. unfold interpret_option.
  rewrite (g_strsplit_key_val key val H). reflexivity.
Qed.

(** X1.  The value of the encoding option is everything after the first
    [=], whatever bytes it holds (further [=], white space, no bytes at
    all), and it is passed to [document_set_encoding] as it stands: it
    is not stripped, changed in case or checked.  Nothing but the
    encoding changes. *)
Theorem encoding_value_verbatim (doc : GeanyDocument) (val : string) :
  interpret_option doc ("encoding=" ++ val) = document_set_encoding doc val
  /\ interpret_option doc ("fileencoding=" ++ val)
     = document_set_encoding doc val
  /\ encoding (interpret_option doc ("encoding=" ++ val)) = val
  /\ editor (interpret_option doc ("encoding=" ++ val)) = editor doc
  /\ calls (interpret_option doc ("encoding=" ++ val))
     = (calls doc ++ [Document_set_encoding val])%list.
Proof.
  assert (H1 : interpret_option doc ("encoding=" ++ val)
               = document_set_encoding doc val)
    by (apply (interpret_option_key_val doc "encoding" val); reflexivity).
  assert (H2 : interpret_option doc ("fileencoding=" ++ val)
               = document_set_encoding doc val)
    by (apply (interpret_option_key_val doc "fileencoding" val); reflexivity).
  split; [exact H1|]. split; [exact H2|]. rewrite H1. repeat split.
Qed.

(** X2.  The flag options do not look at their value: [expandtab=] and
    [et=] followed by anything set the indent type to spaces,
    [noexpandtab=] followed by anything sets it to tabs, [wrap=] followed
    by anything turns line wrapping on and [nowrap=] followed by
    anything turns it off.  So [et=0] indents with spaces and [wrap=off]
    wraps. *)
Theorem flag_option_ignores_value (doc : GeanyDocument) (val : string) :
  interpret_option doc ("expandtab=" ++ val) = opt_expand_tab doc (Arg_gint 1)
  /\ interpret_option doc ("et=" ++ val) = opt_expand_tab doc (Arg_gint 1)
  /\ indent_type (editor (interpret_option doc ("et=" ++ val)))
     = GEANY_INDENT_TYPE_SPACES
  /\ interpret_option doc ("noexpandtab=" ++ val)
     = opt_expand_tab doc (Arg_gint 0)
  /\ indent_type (editor (interpret_option doc ("noexpandtab=" ++ val)))
     = GEANY_INDENT_TYPE_TABS
  /\ interpret_option doc ("wrap=" ++ val) = opt_wrap doc (Arg_gint 1)
  /\ sci_wrap_mode (sci (editor (interpret_option doc ("wrap=" ++ val))))
     = SC_WRAP_WORD
  /\ interpret_option doc ("nowrap=" ++ val) = opt_wrap doc (Arg_gint 0)
  /\ sci_wrap_mode (sci (editor (interpret_option doc ("nowrap=" ++ val))))
     = SC_WRAP_NONE.
Proof.
  assert (H1 : interpret_option doc ("expandtab=" ++ val)
               = opt_expand_tab doc (Arg_gint 1))
    by (apply (interpret_option_key_val doc "expandtab" val); reflexivity).
  assert (H2 : interpret_option doc ("et=" ++ val)
               = opt_expand_tab doc (Arg_gint 1))
    by (apply (interpret_option_key_val doc "et" val); reflexivity).
  assert (H3 : interpret_option doc ("noexpandtab=" ++ val)
               = opt_expand_tab doc (Arg_gint 0))
    by (apply (interpret_option_key_val doc "noexpandtab" val); reflexivity).
  assert (H4 : interpret_option doc ("wrap=" ++ val)
               = opt_wrap doc (Arg_gint 1))
    by (apply (interpret_option_key_val doc "wrap" val); reflexivity).
  assert (H5 : interpret_option doc ("nowrap=" ++ val)
               = opt_wrap doc (Arg_gint 0))
    by (apply (interpret_option_key_val doc "nowrap" val); reflexivity).
  rewrite H1, H2, H3, H4, H5. repeat split.
Qed.

(** X3.  Keys are compared without regard to the case of ASCII letters:
    two keys that [g_ascii_strcasecmp] takes for equal, put in front of
    the same value, do the same to the document. *)
Theorem option_key_case_insensitive (doc : GeanyDocument)
  (key key' val : string) :
  nul_free key = true -> nul_free key' = true ->
  strstr key "=" = None -> strstr key' "=" = None ->
  g_ascii_strcasecmp key key' = 0 ->
  interpret_option doc (key' ++ String "=" val)
  = interpret_option doc (key ++ String "=" val).
Proof.
  intros Hn Hn' He He' Hcmp.
  rewrite !interpret_option_key_val by assumption.
  apply interpret_loop_swap_key; auto.
Qed.

(** [TabStop=3] is [tabstop=3]. *)
Lemma option_key_case_insensitive_witness :
  let doc := sample_document [] GEANY_INDENT_TYPE_TABS 8 in
  interpret_option doc "TabStop=3" = interpret_option doc "tabstop=3"
  /\ indent_width (editor (interpret_option doc "TabStop=3")) = 3.
Proof.
  intros doc.
  pose proof (option_key_case_insensitive doc "tabstop" "TabStop" "3"
                eq_refl eq_refl eq_refl eq_refl eq_refl) as H.
  split; [exact H | reflexivity].
Defined.

Lemma strstr_equals_split (s : string) (off : nat) :
  strstr s "=" = Some off ->
  exists key val, s = key ++ String "=" val /\ strstr key "=" = None.
Proof.
  revert off; induction s as [|x s IH]; intros off H.
  - discriminate.
  - cbn [strstr] in H. rewrite prefix_single in H.
    destruct (ascii_dec "=" x) as [<-|Hx].
    + exists "", s. split; reflexivity.
    + destruct (strstr s "=") as [k|] eqn:Ek; [|discriminate].
      destruct (IH k eq_refl) as [key [val [Hs Hk]]].
      exists (String x key), val. split.
      * simpl. now rewrite Hs.
      * cbn [strstr]. rewrite prefix_single.
        destruct (ascii_dec "=" x); [contradiction|]. now rewrite Hk.
Qed.

Lemma interpret_loop_cases (table : list mode_opt) (doc : GeanyDocument)
  (key : string) (val : option string) :
  interpret_loop table doc key val = doc
  \/ exists o, In o table /\ opt_matches o key = true
               /\ interpret_loop table doc key val = dispatch o doc val.
Proof.
  induction table as [|o table IH]; cbn [interpret_loop].
  - left; reflexivity.
  - destruct (opt_matches o key) eqn:E.
    + right. exists o. repeat split; auto. left; reflexivity.
    + destruct IH as [IH|[o' [Hin [Hm Hd]]]]; [left; exact IH|].
      right. exists o'. repeat split; auto. right; exact Hin.
Qed.

(** The entry a key matches is the entry the lookup dispatches. *)
Lemma interpret_loop_first_match (doc : GeanyDocument) (o : mode_opt)
  (key : string) (val : option string) :
  In o opts -> opt_matches o key = true ->
  interpret_loop opts doc key val = dispatch o doc val.
Proof.
  intros Hin Hm. unfold opt_matches in Hm. apply orb_true_iff in Hm.
  assert (Hall : forallb opt_nul_free opts = true) by reflexivity.
  cbn [opts In] in Hin.
  repeat (destruct Hin as [<-|Hin]; [|]); try contradiction;
    cbn [name alias] in Hm;
    (destruct Hm as [Hm|Hm]; try discriminate Hm; apply Z.eqb_eq in Hm;
     match type of Hm with
     | g_ascii_strcasecmp ?n key = 0 =>
         rewrite (interpret_loop_swap_key opts doc n key val Hall eq_refl Hm)
     end;
     reflexivity).
Qed.

(** With a value at hand every entry of the table calls the host. *)
Lemma dispatch_calls_host (doc : GeanyDocument) (o : mode_opt)
  (val : string) :
  In o opts -> dispatch o doc (Some val) <> doc.
Proof.
  intros Hin. cbn [opts In] in Hin.
  repeat (destruct Hin as [<-|Hin];
          [first [ apply opt_expand_tab_calls
                 | apply opt_tab_stop_neq
                 | eapply (calls_longer_neq _ _ _ []); reflexivity ]|]).
  contradiction.
Qed.

(** X4.  A token without [=] leaves the document as it is.  A token
    key=value, the key being what stands before the first [=], whose key
    matches the name or the alias of an entry of the table is dispatched
    to that entry: the document becomes what the [switch] makes of the
    entry and the value, and at least one host call is made.  A key that
    matches no entry leaves the document as it is. *)
Theorem interpret_option_known_keys_only (doc : GeanyDocument)
  (opt : string) :
  (strstr opt "=" = None -> interpret_option doc opt = doc)
  /\ (forall key val,
        opt = key ++ String "=" val -> strstr key "=" = None ->
        (forall o, In o opts -> opt_matches o key = true ->
           interpret_option doc opt = dispatch o doc (Some val)
           /\ interpret_option doc opt <> doc)
        /\ ((forall o, In o opts -> opt_matches o key = false) ->
            interpret_option doc opt = doc))
  /\ (interpret_option doc opt = doc
      \/ exists key val o,
           opt = key ++ String "=" val
           /\ strstr key "=" = None
           /\ In o opts
           /\ opt_matches o key = true
           /\ interpret_option doc opt = dispatch o doc (Some val)).
Proof.
  split; [apply interpret_option_no_equals|]. split.
  - intros key val -> Hk.
    rewrite (interpret_option_key_val doc key val Hk). split.
    + intros o Hin Hm.
      rewrite (interpret_loop_first_match doc o key (Some val) Hin Hm).
      split; [reflexivity | now apply dispatch_calls_host].
    + intros Hnone.
      destruct (interpret_loop_cases opts doc key (Some val))
        as [H|[o [Hin [Hm _]]]]; [exact H|].
      rewrite (Hnone o Hin) in Hm. discriminate.
  - destruct (strstr opt "=") as [off|] eqn:E.
    + destruct (strstr_equals_split opt off E) as [key [val [-> Hk]]].
      rewrite (interpret_option_key_val doc key val Hk).
      destruct (interpret_loop_cases opts doc key (Some val))
        as [H|[o [Hin [Hm Hd]]]]; [left; exact H|].
      right. exists key, val, o. repeat split; auto.
    + left. now apply interpret_option_no_equals.
Qed.

(** X5.  No key matches two entries of the table, so the order of the
    entries decides nothing: the entry a key is dispatched to is the
    only one it matches. *)
Theorem opts_match_at_most_one (o1 o2 : mode_opt) (key : string) :
  In o1 opts -> In o2 opts ->
  opt_matches o1 key = true -> opt_matches o2 key = true ->
  o1 = o2.
Proof.
  intros H1 H2 M1 M2. unfold opt_matches in M1, M2.
  apply orb_true_iff in M1. apply orb_true_iff in M2.
  assert (Hcmp : forall a b, nul_free a = true -> nul_free b = true ->
                   (g_ascii_strcasecmp a key =? 0) = true ->
                   (g_ascii_strcasecmp b key =? 0) = true ->
                   (g_ascii_strcasecmp a b =? 0) = true).
  { intros a b Ha Hb Hak Hbk. apply Z.eqb_eq in Hak, Hbk. apply Z.eqb_eq.
    eapply strcasecmp_same_key; eauto. }
  cbn [opts In] in H1, H2.
  repeat (destruct H1 as [<-|H1]; [|]); try contradiction;
    repeat (destruct H2 as [<-|H2]; [|]); try contradiction;
    try reflexivity;
    cbn [name alias] in M1, M2;
    destruct M1 as [M1|M1]; try discriminate M1;
    destruct M2 as [M2|M2]; try discriminate M2;
    match type of M1 with
    | (g_ascii_strcasecmp ?a key =? 0) = true =>
        match type of M2 with
        | (g_ascii_strcasecmp ?b key =? 0) = true =>
            discriminate (Hcmp a b eq_refl eq_refl M1 M2)
        end
    end.
Qed.

(** [ts] matches the tabstop entry and no other. *)
Lemma opts_match_at_most_one_witness :
  forallb (fun o => negb (opt_matches o "ts") || String.eqb (name o) "tabstop")
    opts = true
  /\ mkOpt "tabstop" (Some "ts") MODE_OPT_ARG_INT opt_tab_stop
     = mkOpt "tabstop" (Some "ts") MODE_OPT_ARG_INT opt_tab_stop.
Proof.
  split; [reflexivity|].
  apply (opts_match_at_most_one _ _ "ts").
  - right; right; left; reflexivity.
  - right; right; left; reflexivity.
  - reflexivity.
  - reflexivity.
Defined.

(** Either the token is passed over, or one entry of the table is
    dispatched with the value of the token. *)
Lemma interpret_option_known_keys_only_aux (doc : GeanyDocument)
  (opt : string) :
  interpret_option doc opt = doc
  \/ exists o val, In o opts /\ interpret_option doc opt = dispatch o doc val.
Proof.
  destruct (strstr opt "=") as [off|] eqn:E.
  - destruct (strstr_equals_split opt off E) as [key [val [-> Hk]]].
    rewrite (interpret_option_key_val doc key val Hk).
    destruct (interpret_loop_cases opts doc key (Some val))
      as [H|[o [Hin [Hm Hd]]]]; [left; exact H|].
    right. exists o, (Some val). split; assumption.
  - left. now apply interpret_option_no_equals.
Qed.

(** * What the whole pipeline keeps *)

(** A property of documents that the four handlers keep is kept by the
    interpreter, the tokenizer and the scanner. *)
Section Preservation.

Variable P : GeanyDocument -> Prop.
Hypothesis P_expand_tab : forall doc arg, P doc -> P (opt_expand_tab doc arg).
Hypothesis P_tab_stop : forall doc arg, P doc -> P (opt_tab_stop doc arg).
Hypothesis P_wrap : forall doc arg, P doc -> P (opt_wrap doc arg).
Hypothesis P_enc : forall doc arg, P doc -> P (opt_enc doc arg).

Lemma preserved_cb (o : mode_opt) (doc : GeanyDocument) (arg : cb_arg) :
  In o opts -> P doc -> P (cb o doc arg).
Proof.
  intros Hin Hp. cbn [opts In] in Hin.
  repeat (destruct Hin as [<-|Hin]; [cbn [cb]; auto|]). contradiction.
Qed.

Lemma preserved_dispatch (o : mode_opt) (doc : GeanyDocument)
  (val : option string) :
  In o opts -> P doc -> P (dispatch o doc val).
Proof.
  intros Hin Hp. unfold dispatch.
  destruct (arg_type o); try destruct val; auto using preserved_cb.
Qed.

Lemma preserved_interpret_option (doc : GeanyDocument) (opt : string) :
  P doc -> P (interpret_option doc opt).
Proof.
  intros Hp.
  destruct (interpret_option_known_keys_only_aux doc opt)
    as [->|[o [val [Hin ->]]]]; [exact Hp|].
  now apply preserved_dispatch.
Qed.

Lemma preserved_tokens (toks : list string) (doc : GeanyDocument) :
  P doc -> P (fold_left interpret_option toks doc).
Proof.
  revert doc; induction toks as [|t toks IH]; intros doc Hp; cbn [fold_left].
  - exact Hp.
  - apply IH. now apply preserved_interpret_option.
Qed.

Lemma preserved_scan_document (doc : GeanyDocument) :
  P doc -> P (scan_document doc).
Proof.
  intros Hp. rewrite scan_document_find.
  destruct (is_valid doc); [|exact Hp].
  destruct (find is_modeline (firstn 50 (sci_text (sci (editor doc)))));
    [|exact Hp].
  unfold parse_options. now apply preserved_tokens.
Qed.

End Preservation.

Lemma opt_wrap_consistent (doc : GeanyDocument) (arg : cb_arg) :
  wrap_consistent doc = true -> wrap_consistent (opt_wrap doc arg) = true.
Proof.
  intros H. destruct arg as [i|s]; [|exact H].
  unfold wrap_consistent, opt_wrap. cbn.
  destruct (i =? 0); reflexivity.
Qed.

(** X6.  The flag [line_wrapping] of the editor and the wrap mode of
    Scintilla stay in step: when they agree before a hook runs (both off
    or both on), they agree after it, whatever the document holds, and
    the same holds for every single token. *)
Theorem wrap_flag_and_mode_agree (doc : GeanyDocument) :
  wrap_consistent doc = true ->
  wrap_consistent (on_document_save doc) = true
  /\ wrap_consistent (on_document_open doc) = true
  /\ (forall opt, wrap_consistent (interpret_option doc opt) = true).
Proof.
  intros H.
  assert (Hs : wrap_consistent (scan_document doc) = true).
  { apply (preserved_scan_document (fun d => wrap_consistent d = true));
      auto using opt_wrap_consistent.
    - intros d [i|s] Hd; exact Hd.
    - intros d [i|s] Hd; exact Hd.
    - intros d [i|s] Hd; exact Hd. }
  split; [exact Hs|]. split; [exact Hs|].
  intros opt.
  apply (preserved_interpret_option (fun d => wrap_consistent d = true));
    auto using opt_wrap_consistent.
  - intros d [i|s] Hd; exact Hd.
  - intros d [i|s] Hd; exact Hd.
  - intros d [i|s] Hd; exact Hd.
Qed.

(** A document that did not wrap wraps, flag and mode alike, after a
    modeline with [wrap=]. *)
Lemma wrap_flag_and_mode_agree_witness :
  let doc := sample_document ["/* vim: wrap=1 */"] GEANY_INDENT_TYPE_TABS 8 in
  wrap_consistent (on_document_save doc) = true
  /\ line_wrapping (editor (on_document_save doc)) = 1
  /\ sci_wrap_mode (sci (editor (on_document_save doc))) = SC_WRAP_WORD.
Proof.
  intros doc.
  destruct (wrap_flag_and_mode_agree doc eq_refl) as [H _].
  split; [exact H|]. split; reflexivity.
Defined.

Lemma last_encoding_app (l1 l2 : list host_call) (enc : string) :
  last_encoding (l1 ++ l2) enc = last_encoding l2 (last_encoding l1 enc).
Proof. unfold last_encoding. apply fold_left_app. Qed.

Lemma calls_extend_refl (doc : GeanyDocument) : calls_extend doc doc.
Proof.
  exists []. rewrite app_nil_r. repeat split.
Qed.

(** A step that adds the calls [l2], no reload among them, and leaves
    the encoding they give, extends what was reached. *)
Lemma calls_extend_step (doc0 doc doc' : GeanyDocument)
  (l2 : list host_call) :
  calls_extend doc0 doc ->
  calls doc' = (calls doc ++ l2)%list ->
  forallb (fun c => negb (is_reload c)) l2 = true ->
  encoding doc' = last_encoding l2 (encoding doc) ->
  calls_extend doc0 doc'.
Proof.
  intros [l [Hc [Hr He]]] Hc' Hr' He'. exists (l ++ l2)%list.
  split; [|split].
  - rewrite Hc', Hc. now rewrite app_assoc.
  - rewrite forallb_app, Hr, Hr'. reflexivity.
  - rewrite last_encoding_app, <- He. exact He'.
Qed.

Lemma calls_extend_scan (doc : GeanyDocument) :
  calls_extend doc (scan_document doc).
Proof.
  apply (preserved_scan_document (calls_extend doc)).
  - intros d [i|s] Hd; [|exact Hd].
    apply (calls_extend_step doc d _
             [Editor_set_indent_type
                (if i =? 0 then GEANY_INDENT_TYPE_TABS
                 else GEANY_INDENT_TYPE_SPACES)] Hd); reflexivity.
  - intros d [i|s] Hd; [|exact Hd].
    apply (calls_extend_step doc d _
             [Editor_set_indent_width i;
              Editor_set_indent_type (indent_type (editor d))] Hd);
      try reflexivity.
    apply opt_tab_stop_calls.
  - intros d [i|s] Hd; [|exact Hd].
    apply (calls_extend_step doc d _
             [Sci_set_wrap_mode (if i =? 0 then SC_WRAP_NONE
                                 else SC_WRAP_WORD)] Hd); reflexivity.
  - intros d [i|s] Hd; [exact Hd|].
    apply (calls_extend_step doc d _ [Document_set_encoding s] Hd);
      reflexivity.
  - apply calls_extend_refl.
Qed.

(** X7.  A hook only adds host calls.  The calls the save hook adds are
    calls that set the indent type, the indent width, the wrap mode or
    the encoding, never a reload, and the encoding of the document
    afterwards is the one the last [document_set_encoding] among them
    gave (the old one if there is none).  The open hook adds the same
    calls and then one reload, asked for with that encoding. *)
Theorem hooks_host_calls (doc : GeanyDocument) :
  exists l : list host_call,
    calls (on_document_save doc) = (calls doc ++ l)%list
    /\ forallb (fun c => negb (is_reload c)) l = true
    /\ encoding (on_document_save doc) = last_encoding l (encoding doc)
    /\ calls (on_document_open doc)
       = (calls doc ++ l
            ++ [Document_reload_force (last_encoding l (encoding doc))])%list.
Proof.
  destruct (calls_extend_scan doc) as [l [Hc [Hr He]]].
  exists l. unfold on_document_save, on_document_open.
  split; [exact Hc|]. split; [exact Hr|]. split; [exact He|].
  cbn [document_reload_force record_call calls].
  rewrite Hc, He. now rewrite app_assoc.
Qed.

(** * Further properties of the tokenizer *)

Lemma append_empty_r (s : string) : s ++ "" = s.
Proof. induction s as [|c s IH]; simpl; [reflexivity | now rewrite IH]. Qed.

(** Bytes that are no separators are gathered into the field being
    read. *)
Lemma g_strsplit_set_loop_field (set : string) (max : Z) (f s cur : string)
  (n : Z) :
  none_in set f = true ->
  g_strsplit_set_loop set max (f ++ s) cur n
  = g_strsplit_set_loop set max s (cur ++ f) n.
Proof.
  revert cur; induction f as [|c f IH]; intros cur H.
  - now rewrite append_empty_r.
  - cbn [none_in] in H. apply andb_true_iff in H. destruct H as [Hc Hf].
    apply negb_true_iff in Hc.
    cbn [append g_strsplit_set_loop]. rewrite Hc. cbn [andb].
    rewrite (IH _ Hf), append_assoc. reflexivity.
Qed.

Lemma g_strsplit_set_nonempty (s set : string) :
  s <> "" ->
  g_strsplit_set s set 0 = g_strsplit_set_loop set G_MAXINT s "" 0.
Proof. intros H. destruct s; [congruence | reflexivity]. Qed.

Lemma option_tokens_after_first_field (f0 rest : string) (d : ascii) :
  mem_char d ": ," = true -> none_in ": ," f0 = true ->
  option_tokens (f0 ++ String d rest)
  = g_strsplit_set_loop ": ," G_MAXINT rest "" 1.
Proof.
  intros Hd Hf. unfold option_tokens.
  rewrite g_strsplit_set_nonempty by (destruct f0; discriminate).
  rewrite (g_strsplit_set_loop_field _ _ f0 _ _ _ Hf).
  cbn [g_strsplit_set_loop]. rewrite Hd. reflexivity.
Qed.

(** X8.  What stands in a modeline before its first separator (colon,
    space or comma) plays no role: two lines that differ only there are
    split into the same tokens and do the same to the document.  An
    option written there is not interpreted. *)
Theorem first_field_is_ignored (doc : GeanyDocument) (f0 f0' rest : string)
  (d : ascii) :
  mem_char d ": ," = true ->
  none_in ": ," f0 = true -> none_in ": ," f0' = true ->
  option_tokens (f0 ++ String d rest) = option_tokens (f0' ++ String d rest)
  /\ parse_options doc (f0 ++ String d rest)
     = parse_options doc (f0' ++ String d rest).
Proof.
  intros Hd Hf Hf'.
  assert (H : option_tokens (f0 ++ String d rest)
              = option_tokens (f0' ++ String d rest))
    by (now rewrite !option_tokens_after_first_field).
  split; [exact H|]. unfold parse_options. now rewrite H.
Qed.

(** [ts=8] in the place of the comment sign is not applied. *)
Lemma first_field_is_ignored_witness :
  let doc := sample_document [] GEANY_INDENT_TYPE_TABS 4 in
  parse_options doc "ts=8 vim: et=1" = parse_options doc "# vim: et=1"
  /\ indent_width (editor (parse_options doc "ts=8 vim: et=1")) = 4.
Proof.
  intros doc.
  destruct (first_field_is_ignored doc "ts=8" "#" "vim: et=1" " "
              eq_refl eq_refl eq_refl) as [_ H].
  split; [exact H | reflexivity].
Defined.

Lemma same_fields_loop (set : string) (max : Z) (s t cur : string) (n : Z) :
  same_fields set s t = true ->
  n + Z.of_nat (String.length s) < max ->
  g_strsplit_set_loop set max s cur n = g_strsplit_set_loop set max t cur n.
Proof.
  revert t cur n; induction s as [|a s IH]; intros t cur n H Hlen.
  - destruct t; [reflexivity | discriminate].
  - destruct t as [|b t]; [discriminate|].
    cbn [same_fields] in H. apply andb_true_iff in H. destruct H as [Hab Hst].
    cbn [String.length] in Hlen. cbn [g_strsplit_set_loop].
    destruct (mem_char a set) eqn:Ea.
    + rewrite Hab. replace (n + 1 <? max) with true by lia. cbn [andb].
      f_equal. apply IH; [exact Hst | lia].
    + apply Ascii.eqb_eq in Hab. subst b. rewrite Ea. cbn [andb].
      apply IH; [exact Hst | lia].
Qed.

(** X9.  Colon, space and comma are the same to the tokenizer: a line
    (shorter than [G_MAXINT] bytes) in which separators are replaced by
    other separators, every other byte staying what and where it is, is
    split into the same tokens and does the same to the document. *)
Theorem separators_are_interchangeable (doc : GeanyDocument)
  (buf buf' : string) :
  same_fields ": ," buf buf' = true ->
  Z.of_nat (String.length buf) < G_MAXINT ->
  option_tokens buf = option_tokens buf'
  /\ parse_options doc buf = parse_options doc buf'.
Proof.
  intros H Hlen.
  assert (E : option_tokens buf = option_tokens buf').
  { unfold option_tokens, g_strsplit_set. cbn [Z.ltb Z.compare].
    destruct buf as [|a buf]; destruct buf' as [|b buf'];
      try discriminate; [reflexivity|].
    f_equal. apply same_fields_loop; [exact H | lia]. }
  split; [exact E|]. unfold parse_options. now rewrite E.
Qed.

(** The same options, separated by colons, then by spaces and commas. *)
Lemma separators_are_interchangeable_witness :
  let doc := sample_document [] GEANY_INDENT_TYPE_TABS 8 in
  parse_options doc "# vim:et=1:ts=4:wrap=1"
  = parse_options doc "# vim et=1,ts=4 wrap=1".
Proof.
  intros doc.
  destruct (separators_are_interchangeable doc "# vim:et=1:ts=4:wrap=1"
              "# vim et=1,ts=4 wrap=1" eq_refl eq_refl) as [_ H].
  exact H.
Defined.

(** * Integer values that are no plain numbers *)

Lemma g_strchomp_nonspace (c : ascii) (s : string) :
  g_ascii_isspace c = false ->
  g_strchomp (String c s) = String c (g_strchomp s).
Proof.
  intros H. cbn [g_strchomp]. rewrite H. now destruct (g_strchomp s).
Qed.

Lemma digit_is_no_space (c : ascii) :
  g_ascii_isdigit c = true -> g_ascii_isspace c = false.
Proof. unfold g_ascii_isdigit, g_ascii_isspace. lia. Qed.

Lemma g_strchomp_after_digits (d t : string) :
  all_digits d = true -> g_strchomp (d ++ t) = d ++ g_strchomp t.
Proof.
  induction d as [|c d IH]; intros H; [reflexivity|].
  cbn [all_digits] in H. apply andb_true_iff in H. destruct H as [Hc Hd].
  cbn [append]. rewrite g_strchomp_nonspace by now apply digit_is_no_space.
  now rewrite IH.
Qed.

Lemma g_strchomp_starts_no_digit (t : string) :
  starts_no_digit t = true -> starts_no_digit (g_strchomp t) = true.
Proof.
  destruct t as [|c t]; [reflexivity|]. cbn [starts_no_digit g_strchomp].
  intros H. destruct (g_strchomp t); [|exact H].
  destruct (g_ascii_isspace c); [reflexivity | exact H].
Qed.

(** The digit loop stops at the first byte that is no digit. *)
Lemma parse_digits_prefix (d u : string) (acc : Z) (n : nat) :
  all_digits d = true -> starts_no_digit u = true ->
  0 <= acc -> decimal_value d acc <= G_MAXUINT64 ->
  parse_digits 10 (d ++ u) acc false n
  = (decimal_value d acc, false, (n + String.length d)%nat).
Proof.
  revert acc n; induction d as [|c d IH]; intros acc n Hd Hu Hacc Hmax.
  - cbn [append decimal_value String.length]. rewrite Nat.add_0_r.
    destruct u as [|c u]; [reflexivity|].
    cbn [starts_no_digit] in Hu. apply negb_true_iff in Hu.
    cbn [parse_digits]. pose proof (digit_value_other c Hu) as Ho.
    destruct (digit_value c) as [v|]; [|reflexivity].
    replace (10 <=? v) with true by lia. reflexivity.
  - cbn [all_digits] in Hd. apply andb_true_iff in Hd.
    destruct Hd as [Hc Hs]. pose proof (digit_bounds c Hc) as Hb.
    cbn [append parse_digits decimal_value String.length] in *.
    rewrite (digit_value_digit c Hc).
    pose proof (decimal_value_mono d (acc * 10 + (code c - 48)) Hs) as Hm.
    replace (10 <=? code c - 48) with false by lia.
    change (G_MAXUINT64 / 10) with 1844674407370955161.
    change (G_MAXUINT64 mod 10) with 5.
    unfold G_MAXUINT64 in *.
    replace ((1844674407370955161 <? acc)
             || ((acc =? 1844674407370955161) && (5 <? code c - 48)))
      with false by lia.
    rewrite IH by (auto; lia). f_equal. lia.
Qed.

Lemma g_ascii_strtoull_prefix (d u : string) :
  all_digits d = true -> d <> "" -> starts_no_digit u = true ->
  decimal_value d 0 <= G_MAXUINT64 ->
  g_ascii_strtoull (d ++ u) 10 = decimal_value d 0.
Proof.
  intros Hd Hne Hu Hmax. destruct d as [|c d]; [congruence|].
  pose proof Hd as Hd'. cbn [all_digits] in Hd'.
  apply andb_true_iff in Hd'. destruct Hd' as [Hc _].
  unfold g_ascii_strtoull. cbn [append].
  rewrite (strtoull_skip_digit c _ Hc), (read_sign_digit c _ Hc).
  change (String c (d ++ u)) with (String c d ++ u).
  rewrite (parse_digits_prefix (String c d) u 0 0 Hd Hu) by (auto; lia).
  reflexivity.
Qed.

Lemma g_ascii_strtoull_minus (d : string) :
  all_digits d = true -> d <> "" -> decimal_value d 0 <= G_MAXUINT64 ->
  g_ascii_strtoull (String "-" d) 10 = (- decimal_value d 0) mod 2 ^ 64.
Proof.
  intros Hd Hne Hmax. unfold g_ascii_strtoull.
  change (strtoull_skip (String "-" d)) with (String "-" d).
  change (read_sign (String "-" d)) with (true, d). cbv beta iota.
  rewrite (parse_digits_decimal d 0 0 Hd) by (auto; lia).
  destruct d as [|c d]; [congruence|]. reflexivity.
Qed.

Lemma to_gint_minus (v : Z) :
  0 <= v <= 2 ^ 31 -> to_gint ((- v) mod 2 ^ 64) = - v.
Proof.
  intros H. unfold to_gint.
  change (2 ^ 64) with 18446744073709551616.
  change (2 ^ 32) with 4294967296. change (2 ^ 31) with 2147483648 in *.
  Z.div_mod_to_equations. lia.
Qed.

Lemma interpret_option_ts (doc : GeanyDocument) (val : string) :
  interpret_option doc ("ts=" ++ val)
  = opt_tab_stop doc
      (Arg_gint (to_gint (g_ascii_strtoull (g_strstrip val) 10))).
Proof.
  change ("ts=" ++ val) with ("ts" ++ String "=" val).
  rewrite (interpret_option_key_val doc "ts" val eq_refl). reflexivity.
Qed.

(** X10.  The value of an integer option is not checked.  Digits
    followed by anything that does not start with a digit are read as
    the number the digits write and the rest is dropped ([ts=4x] is
    [ts=4]); digits after a minus sign give the negative number, which
    is handed to the host as the indent width ([ts=-4] sets the width
    to -4). *)
Theorem integer_value_not_validated (doc : GeanyDocument) (d : string) :
  all_digits d = true -> d <> "" -> decimal_value d 0 < 2 ^ 31 ->
  (forall t, starts_no_digit t = true ->
     interpret_option doc ("ts=" ++ d ++ t)
     = opt_tab_stop doc (Arg_gint (decimal_value d 0)))
  /\ interpret_option doc ("ts=-" ++ d)
     = opt_tab_stop doc (Arg_gint (- decimal_value d 0))
  /\ indent_width (editor (interpret_option doc ("ts=-" ++ d)))
     = - decimal_value d 0.
Proof.
  intros Hd Hne Hlt.
  pose proof (decimal_value_mono d 0 Hd (Z.le_refl 0)) as Hpos.
  assert (Hmax : decimal_value d 0 <= G_MAXUINT64)
    by (unfold G_MAXUINT64; lia).
  assert (Hneg : interpret_option doc ("ts=-" ++ d)
                 = opt_tab_stop doc (Arg_gint (- decimal_value d 0))).
  { change ("ts=-" ++ d) with ("ts=" ++ String "-" d).
    rewrite interpret_option_ts. unfold g_strstrip.
    change (g_strchug (String "-" d)) with (String "-" d).
    rewrite g_strchomp_nonspace by reflexivity.
    rewrite (g_strchomp_digits d Hd), (g_ascii_strtoull_minus d Hd Hne Hmax).
    rewrite to_gint_minus by lia. reflexivity. }
  split; [|split; [exact Hneg | now rewrite Hneg]].
  intros t Ht. rewrite interpret_option_ts. unfold g_strstrip.
  destruct d as [|c d]; [congruence|].
  pose proof Hd as Hd'. cbn [all_digits] in Hd'.
  apply andb_true_iff in Hd'. destruct Hd' as [Hc _].
  cbn [append]. rewrite (g_strchug_digit c _ Hc).
  change (String c (d ++ t)) with (String c d ++ t).
  rewrite (g_strchomp_after_digits _ t Hd).
  rewrite (g_ascii_strtoull_prefix _ _ Hd Hne
             (g_strchomp_starts_no_digit t Ht) Hmax).
  rewrite to_gint_small by lia. reflexivity.
Qed.

(** [ts=12px] sets the width to 12, [ts=-12] to -12. *)
Lemma integer_value_not_validated_witness :
  let doc := sample_document [] GEANY_INDENT_TYPE_TABS 8 in
  indent_width (editor (interpret_option doc "ts=12px")) = 12
  /\ indent_width (editor (interpret_option doc "ts=-12")) = -12.
Proof.
  intros doc.
  assert (Hne : "12" <> "") by discriminate.
  destruct (integer_value_not_validated doc "12" eq_refl Hne eq_refl)
    as [H1 [_ H2]].
  split; [|exact H2].
  exact (f_equal (fun d => indent_width (editor d)) (H1 "px" eq_refl)).
Defined.

(** Once the digit loop has seen an overflow it reports one. *)
Lemma parse_digits_overflow_sticky (s : string) (acc : Z) (n : nat) :
  all_digits s = true ->
  exists v, parse_digits 10 s acc true n = (v, true, (n + String.length s)%nat).
Proof.
  revert acc n; induction s as [|c s IH]; intros acc n Hd.
  - exists acc. simpl. now rewrite Nat.add_0_r.
  - cbn [all_digits] in Hd. apply andb_true_iff in Hd.
    destruct Hd as [Hc Hs]. pose proof (digit_bounds c Hc) as Hb.
    cbn [parse_digits String.length]. rewrite (digit_value_digit c Hc).
    replace (10 <=? code c - 48) with false by lia.
    destruct ((G_MAXUINT64 / 10 <? acc)
              || ((acc =? G_MAXUINT64 / 10)
                  && (G_MAXUINT64 mod 10 <? code c - 48)));
      [destruct (IH acc (S n) Hs) as [v Hv]
      |destruct (IH (acc * 10 + (code c - 48)) (S n) Hs) as [v Hv]];
      exists v; rewrite Hv; f_equal; lia.
Qed.

(** Digits that write a number above [G_MAXUINT64] make the digit loop
    report an overflow. *)
Lemma parse_digits_overflow (s : string) (acc : Z) (n : nat) :
  all_digits s = true -> 0 <= acc <= G_MAXUINT64 ->
  G_MAXUINT64 < decimal_value s acc ->
  exists v, parse_digits 10 s acc false n
            = (v, true, (n + String.length s)%nat).
Proof.
  revert acc n; induction s as [|c s IH]; intros acc n Hd Hacc Hbig.
  - simpl in Hbig. lia.
  - cbn [all_digits] in Hd. apply andb_true_iff in Hd.
    destruct Hd as [Hc Hs]. pose proof (digit_bounds c Hc) as Hb.
    cbn [parse_digits decimal_value String.length] in *.
    rewrite (digit_value_digit c Hc).
    replace (10 <=? code c - 48) with false by lia.
    change (G_MAXUINT64 / 10) with 1844674407370955161.
    change (G_MAXUINT64 mod 10) with 5.
    destruct ((1844674407370955161 <? acc)
              || ((acc =? 1844674407370955161) && (5 <? code c - 48)))
      eqn:E.
    + destruct (parse_digits_overflow_sticky s acc (S n) Hs) as [v Hv].
      exists v. rewrite Hv. f_equal. lia.
    + assert (Hle : acc * 10 + (code c - 48) <= G_MAXUINT64)
        by (unfold G_MAXUINT64; lia).
      destruct (IH (acc * 10 + (code c - 48)) (S n) Hs) as [v Hv];
        [lia | exact Hbig |].
      exists v. rewrite Hv. f_equal. lia.
Qed.

Lemma to_gint_range (z : Z) : - 2 ^ 31 <= to_gint z < 2 ^ 31.
Proof.
  unfold to_gint. change (2 ^ 32) with 4294967296.
  change (2 ^ 31) with 2147483648.
  pose proof (Z.mod_pos_bound (z + 2147483648) 4294967296). lia.
Qed.

Lemma to_gint_congruent (z : Z) : (to_gint z - z) mod 2 ^ 32 = 0.
Proof.
  unfold to_gint. change (2 ^ 32) with 4294967296.
  change (2 ^ 31) with 2147483648.
  Z.div_mod_to_equations. lia.
Qed.

(** X11.  A value made of digits that write a number too large for a
    [gint] is not refused: up to [G_MAXUINT64] the indent width becomes
    the number taken modulo 2^32 into the range of a [gint]
    ([ts=4294967300] sets the width to 4), and above [G_MAXUINT64] it
    becomes -1. *)
Theorem integer_value_out_of_range (doc : GeanyDocument) (d : string) :
  all_digits d = true -> d <> "" ->
  let width := indent_width (editor (interpret_option doc ("ts=" ++ d))) in
  (decimal_value d 0 <= G_MAXUINT64 ->
   width = to_gint (decimal_value d 0)
   /\ - 2 ^ 31 <= width < 2 ^ 31
   /\ (width - decimal_value d 0) mod 2 ^ 32 = 0)
  /\ (G_MAXUINT64 < decimal_value d 0 -> width = -1).
Proof.
  intros Hd Hne width. unfold width. rewrite interpret_option_ts.
  rewrite (g_strstrip_digits d Hd).
  change (indent_width (editor (opt_tab_stop doc (Arg_gint ?z)))) with z.
  split.
  - intros Hmax. rewrite (g_ascii_strtoull_decimal d Hd Hne Hmax).
    split; [reflexivity|].
    split; [apply to_gint_range | apply to_gint_congruent].
  - intros Hbig. destruct d as [|c d]; [congruence|].
    pose proof Hd as Hd'. cbn [all_digits] in Hd'.
    apply andb_true_iff in Hd'. destruct Hd' as [Hc _].
    unfold g_ascii_strtoull.
    rewrite (strtoull_skip_digit c d Hc), (read_sign_digit c d Hc).
    destruct (parse_digits_overflow (String c d) 0 0 Hd) as [v Hv];
      [unfold G_MAXUINT64; lia | exact Hbig |].
    rewrite Hv. reflexivity.
Qed.

(** [ts=4294967300] sets the width to 4, twenty nines set it to -1. *)
Lemma integer_value_out_of_range_witness :
  let doc := sample_document [] GEANY_INDENT_TYPE_TABS 8 in
  indent_width (editor (interpret_option doc "ts=4294967300")) = 4
  /\ indent_width (editor (interpret_option doc "ts=99999999999999999999"))
     = -1.
Proof.
  intros doc.
  assert (Hne : forall c s, String c s <> "") by discriminate.
  split.
  - destruct (integer_value_out_of_range doc "4294967300" eq_refl
                (Hne _ _)) as [H _].
    destruct (H ltac:(discriminate)) as [Hw _]. exact Hw.
  - destruct (integer_value_out_of_range doc "99999999999999999999" eq_refl
                (Hne _ _)) as [_ H].
    exact (H eq_refl).
Defined.

(** * The integer options *)









(** * Further properties of the scanner *)

Lemma find_modeline_stripped (l1 l2 : list string) :
  map g_strstrip l1 = map g_strstrip l2 ->
  option_map g_strstrip (find is_modeline l1)
  = option_map g_strstrip (find is_modeline l2).
Proof.
  revert l2; induction l1 as [|a l1 IH]; intros [|b l2] H;
    try discriminate; [reflexivity|].
  cbn [map] in H. injection H as Hab Hl. cbn [find].
  unfold is_modeline at 1 3. rewrite Hab.
  destruct (has_mode_pre mode_pre (g_strstrip b)).
  - cbn [option_map]. now rewrite Hab.
  - now apply IH.
Qed.

Lemma scan_document_config_stripped (doc doc' : GeanyDocument) :
  is_valid doc' = is_valid doc -> config doc' = config doc ->
  map g_strstrip (firstn 50 (sci_text (sci (editor doc'))))
  = map g_strstrip (firstn 50 (sci_text (sci (editor doc)))) ->
  config (scan_document doc') = config (scan_document doc).
Proof.
  intros Hv Hc Ht. rewrite !scan_document_find, Hv.
  destruct (is_valid doc); [|exact Hc].
  pose proof (find_modeline_stripped _ _ Ht) as Hf.
  destruct (find is_modeline (firstn 50 (sci_text (sci (editor doc')))))
    as [a|];
    destruct (find is_modeline (firstn 50 (sci_text (sci (editor doc)))))
      as [b|]; try discriminate Hf; [|exact Hc].
  cbn [option_map] in Hf. injection Hf as Hab. rewrite Hab.
  destruct (setter_parse_options (g_strstrip b)) as [o Ho].
  destruct (Ho doc) as [_ [_ H1]]. destruct (Ho doc') as [_ [_ H2]].
  now rewrite H1, H2, Hc.
Qed.

(** X12.  The settings a hook leaves depend on the text only through
    the first 50 lines, each stripped of the white space at its ends:
    two documents with the same settings whose first 50 lines differ at
    most in indentation, trailing blanks and line ends (and that differ
    in any way after line 50) end with the same settings. *)
Theorem only_stripped_first_lines_matter (doc doc' : GeanyDocument) :
  is_valid doc' = is_valid doc -> config doc' = config doc ->
  map g_strstrip (firstn 50 (sci_text (sci (editor doc'))))
  = map g_strstrip (firstn 50 (sci_text (sci (editor doc)))) ->
  config (on_document_save doc') = config (on_document_save doc)
  /\ config (on_document_open doc') = config (on_document_open doc).
Proof.
  intros Hv Hc Ht.
  pose proof (scan_document_config_stripped doc doc' Hv Hc Ht) as H.
  split; [exact H|]. unfold on_document_open.
  destruct (document_reload_force_frame (scan_document doc)
              (encoding (scan_document doc))) as [_ [_ H1]].
  destruct (document_reload_force_frame (scan_document doc')
              (encoding (scan_document doc'))) as [_ [_ H2]].
  now rewrite H1, H2.
Qed.

(** The same modeline, indented and ended by CR LF in one document and
    bare in the other. *)
Lemma only_stripped_first_lines_matter_witness :
  let crlf := String "013" (String "010" "") in
  let doc := sample_document ["// vim: ts=3"; "x"] GEANY_INDENT_TYPE_TABS 8 in
  let doc' := sample_document
                [String "009" "// vim: ts=3 " ++ crlf; "x" ++ crlf]
                GEANY_INDENT_TYPE_TABS 8 in
  config (on_document_save doc') = config (on_document_save doc)
  /\ indent_width (editor (on_document_save doc')) = 3.
Proof.
  intros crlf doc doc'.
  destruct (only_stripped_first_lines_matter doc doc' eq_refl eq_refl
              eq_refl) as [H _].
  split; [exact H | reflexivity].
Defined.

Lemma g_strchug_head (s : string) :
  match g_strchug s with
  | EmptyString => True
  | String c _ => g_ascii_isspace c = false
  end.
Proof.
  induction s as [|c s IH]; [exact I|]. cbn [g_strchug].
  destruct (g_ascii_isspace c) eqn:E; [exact IH | exact E].
Qed.

Lemma g_strchomp_head (c : ascii) (s : string) :
  g_strchomp (String c s) = ""
  \/ exists t, g_strchomp (String c s) = String c t.
Proof.
  cbn [g_strchomp]. destruct (g_strchomp s) as [|x t].
  - destruct (g_ascii_isspace c); [left | right; exists ""]; reflexivity.
  - right. exists (String x t). reflexivity.
Qed.

(** A stripped line is empty or starts with a byte that is no white
    space. *)
Lemma g_strstrip_head (l : string) :
  match g_strstrip l with
  | EmptyString => True
  | String c _ => g_ascii_isspace c = false
  end.
Proof.
  unfold g_strstrip. pose proof (g_strchug_head l) as H.
  destruct (g_strchug l) as [|c s]; [exact I|].
  destruct (g_strchomp_head c s) as [->|[t ->]]; [exact I | exact H].
Qed.

(** X13.  A marker prefix never stands at the very start of a stripped
    line: the prefixes start with a space and the line is stripped first.
    So a line is a modeline exactly when its stripped text holds a
    prefix with at least one byte before it, the first byte of the line
    being no white space.  The marker word at the start of a line, with
    or without indentation, does not make the line a modeline; a prefix
    further on in the same line does. *)
Theorem modeline_needs_text_before_marker (l : string) :
  (is_modeline l = true
   <-> exists (c : ascii) (a p b : string),
         In p mode_pre
         /\ g_strstrip l = String c a ++ p ++ b
         /\ g_ascii_isspace c = false)
  /\ (forall p a b,
        In p mode_pre -> g_strstrip l = a ++ p ++ b ->
        exists (c : ascii) (a' : string),
          a = String c a' /\ g_ascii_isspace c = false).
Proof.
  assert (Hocc : forall p a b,
             In p mode_pre -> g_strstrip l = a ++ p ++ b ->
             exists (c : ascii) (a' : string),
               a = String c a' /\ g_ascii_isspace c = false).
  { intros p a b Hp Hl.
    pose proof (g_strstrip_head l) as Hh. rewrite Hl in Hh.
    destruct a as [|c a].
    - exfalso. cbn [mode_pre In] in Hp.
      destruct Hp as [<-|[<-|[<-|[<-|[]]]]]; discriminate Hh.
    - exists c, a. split; [reflexivity | exact Hh]. }
  split; [|exact Hocc]. split.
  - intros H. apply is_modeline_iff in H.
    destruct H as [p [a [b [Hp Hl]]]].
    destruct (Hocc p a b Hp Hl) as [c [a' [-> Hc]]].
    exists c, a', p, b. repeat split; auto.
  - intros [c [a [p [b [Hp [Hl _]]]]]].
    apply is_modeline_iff. exists p, (String c a), b. split; assumption.
Qed.

(** A commented modeline is one; the same text alone on its line, with
    or without indentation, is none; with a second marker after it, it
    is one again. *)
Lemma modeline_needs_text_before_marker_witness :
  is_modeline "# vim: ts=4" = true
  /\ is_modeline "vim: ts=4" = false
  /\ is_modeline "    vim: ts=4" = false
  /\ is_modeline "vim: ts=4 vim: sw=2" = true.
Proof.
  split; [|repeat split].
  apply (proj1 (modeline_needs_text_before_marker "# vim: ts=4")).
  exists "#"%char, "", " vim:", " ts=4".
  split; [right; right; left; reflexivity|]. split; reflexivity.
Defined.

(** * How tokens compose *)

Lemma interpret_option_keeps_width (doc : GeanyDocument) (opt : string) :
  integer_token opt = false ->
  indent_width (editor (interpret_option doc opt))
  = indent_width (editor doc).
Proof.
  intros Hint.
  destruct (strstr opt "=") as [off|] eqn:E;
    [|now rewrite interpret_option_no_equals].
  destruct (strstr_equals_split opt off E) as [key [val [-> Hk]]].
  unfold integer_token in Hint. rewrite (g_strsplit_key_val key val Hk) in Hint.
  rewrite (interpret_option_key_val doc key val Hk).
  destruct (interpret_loop_cases opts doc key (Some val))
    as [->|[o [Hin [Hm ->]]]]; [reflexivity|].
  assert (Hty : is_int_arg (arg_type o) = false).
  { destruct (is_int_arg (arg_type o)) eqn:Ei; [|reflexivity].
    assert (Hex : existsb (fun o => opt_matches o key
                                    && is_int_arg (arg_type o)) opts = true).
    { apply existsb_exists. exists o. split; [exact Hin|].
      now rewrite Hm, Ei. }
    congruence. }
  cbn [opts In] in Hin.
  repeat (destruct Hin as [<-|Hin]; [try discriminate Hty; reflexivity|]).
  contradiction.
Qed.

Lemma tokens_keep_width (rest : list string) (doc : GeanyDocument) :
  forallb (fun t => negb (integer_token t)) rest = true ->
  indent_width (editor (fold_left interpret_option rest doc))
  = indent_width (editor doc).
Proof.
  revert doc; induction rest as [|t rest IH]; intros doc H; [reflexivity|].
  cbn [forallb] in H. apply andb_true_iff in H. destruct H as [Ht Hr].
  apply negb_true_iff in Ht. cbn [fold_left].
  rewrite (IH _ Hr). now apply interpret_option_keeps_width.
Qed.

(** X14.  Among the tokens of a modeline the last integer token decides
    the indent width: whatever tokens stand before it, and whatever
    tokens that are no integer tokens stand after it, the width ends as
    the value of that token.  (tabstop, softtabstop and shiftwidth are
    one setting.) *)
Theorem last_integer_token_wins (doc : GeanyDocument)
  (before after : list string) (opt key val : string) (o : mode_opt) :
  In o opts -> arg_type o = MODE_OPT_ARG_INT -> opt_matches o key = true ->
  g_strsplit opt "=" 2 = Some [key; val] ->
  forallb (fun t => negb (integer_token t)) after = true ->
  indent_width
    (editor (fold_left interpret_option (before ++ opt :: after)%list doc))
  = to_gint (g_ascii_strtoull (g_strstrip val) 10).
Proof.
  intros Hin Hty Hm Hkv Hafter.
  rewrite fold_left_app. cbn [fold_left].
  rewrite (tokens_keep_width after _ Hafter).
  generalize (fold_left interpret_option before doc). intros d.
  destruct (interpret_loop_integer d o key (Some val) Hin Hty Hm)
    as [Hcb Hloop].
  unfold interpret_option. rewrite Hkv. cbn [nth_error].
  rewrite Hloop. unfold dispatch. rewrite Hty, Hcb. reflexivity.
Qed.

(** [ts=2] and [sw=6] before, flags after: the width is that of
    [sts=4]. *)
Lemma last_integer_token_wins_witness :
  let doc := sample_document [] GEANY_INDENT_TYPE_TABS 8 in
  option_tokens "# vim: ts=2 sw=6 sts=4 et=1 wrap"
  = ["vim"; ""; "ts=2"; "sw=6"; "sts=4"; "et=1"; "wrap"]
  /\ indent_width
       (editor (parse_options doc "# vim: ts=2 sw=6 sts=4 et=1 wrap")) = 4.
Proof.
  intros doc. split; [reflexivity|].
  apply (last_integer_token_wins doc ["vim"; ""; "ts=2"; "sw=6"]
           ["et=1"; "wrap"] "sts=4" "sts" "4"
           (mkOpt "softtabstop" (Some "sts") MODE_OPT_ARG_INT opt_tab_stop)).
  - right; right; right; left; reflexivity.
  - reflexivity.
  - reflexivity.
  - reflexivity.
  - reflexivity.
Defined.

Lemma g_strsplit_set_loop_fields (set : string) (max : Z) (s cur : string)
  (n : Z) :
  none_in set cur = true ->
  n + Z.of_nat (String.length s) < max ->
  forallb (none_in set) (g_strsplit_set_loop set max s cur n) = true.
Proof.
  revert cur n; induction s as [|c s IH]; intros cur n Hcur Hlen.
  - cbn. now rewrite Hcur.
  - cbn [String.length] in Hlen. cbn [g_strsplit_set_loop].
    destruct (mem_char c set) eqn:Ec.
    + replace (n + 1 <? max) with true by lia. cbn [andb forallb].
      rewrite Hcur. cbn [andb]. apply IH; [reflexivity | lia].
    + cbn [andb]. apply IH; [|lia].
      clear -Hcur Ec. induction cur as [|x cur IHc]; cbn.
      * now rewrite Ec.
      * cbn [none_in] in Hcur. apply andb_true_iff in Hcur.
        destruct Hcur as [Hx Hc]. rewrite Hx. cbn [andb]. now apply IHc.
Qed.

(** X15.  No token that reaches the interpreter holds a colon, a space
    or a comma (for a line shorter than [G_MAXINT] bytes): a value ends
    at the next separator, so an option value cannot hold one. *)
Theorem tokens_hold_no_separator (buf : string) :
  Z.of_nat (String.length buf) < G_MAXINT ->
  forallb (none_in ": ,") (option_tokens buf) = true.
Proof.
  intros Hlen.
  assert (H : forallb (none_in ": ,") (g_strsplit_set buf ": ," 0) = true).
  { unfold g_strsplit_set. cbn [Z.ltb Z.compare].
    destruct buf as [|c buf]; [reflexivity|].
    apply g_strsplit_set_loop_fields; [reflexivity | lia]. }
  unfold option_tokens.
  destruct (g_strsplit_set buf ": ," 0) as [|f fs]; [reflexivity|].
  cbn [forallb] in H. apply andb_true_iff in H. now destruct H.
Qed.

(** An encoding name with a space in it is cut at the space. *)
Lemma tokens_hold_no_separator_witness :
  forallb (none_in ": ,") (option_tokens "# vim: encoding=ISO 8859-1") = true
  /\ option_tokens "# vim: encoding=ISO 8859-1"
     = ["vim"; ""; "encoding=ISO"; "8859-1"].
Proof.
  split; [|reflexivity].
  apply (tokens_hold_no_separator "# vim: encoding=ISO 8859-1"). reflexivity.
Defined.

(** * The GLib functions at the vertical tab and at an overflow *)

Example vertical_tab_is_kept :
  g_strstrip (String "011" " vim: ts=4") = String "011" " vim: ts=4"
  /\ is_modeline (String "011" " vim: ts=4") = true
  /\ g_ascii_strtoull (String "011" "7") 10 = 7.
Proof. repeat split. Qed.

Example overflow_keeps_no_sign :
  g_ascii_strtoull "-18446744073709551616" 10 = G_MAXUINT64
  /\ to_gint (g_ascii_strtoull "-18446744073709551616" 10) = -1
  /\ g_ascii_strtoull "-18446744073709551615" 10 = 1.
Proof. repeat split. Qed.
